(** * 0FluffRead: the feed reader's script, embedded and verified

    The page script with the settings dialog (the file that defines
    [getFeeds], [saveFeeds], [addFeed], [removeFeed], [loadFeed] and
    [loadAllFeeds] together) is embedded function by function.  The browser is
    modelled by explicit state: a [Page] record holds the storage key, the
    [DEFAULT_FEEDS] array object and the DOM elements the script touches; the
    network is a stream of responses per Fetcher call; a loop that may not
    terminate runs on fuel; what the runtime provides ([JSON.parse],
    [String.prototype.trim], [Array.prototype.sort], [new URL]) is modelled
    or taken as a parameter where it is used.  The later rewrite of the
    script ([fetchFeedWithRetry]) is embedded in the module [ScriptJs]. *)

From Stdlib Require Import String Ascii List ZArith Lia Bool Arith.
From Stdlib Require Import Permutation Sorted DecimalString.
Import ListNotations.
Local Open Scope string_scope.
Local Open Scope list_scope.

(** ** Exceptions and completions *)

Inductive exn : Type :=
| Error (message : string)
| TypeError (message : string)
| SyntaxError (message : string).

(** How the evaluation of a piece of script ends. *)
Inductive completion (A : Type) : Type :=
| Normal (value : A)
| Throw (e : exn).
Arguments Normal {A} value.
Arguments Throw {A} e.

(** ** Articles, feeds and proxy payloads *)

Record Feed : Type := mkFeed {
  feed_title : option string;   (* data.feed.title; absent, or a string *)
  feed_link : option string
}.

(** [pubDate] is held by the time value of [new Date(item.pubDate)], in
    milliseconds; [None] is the Invalid Date, whose time value is NaN.
    [feedTitle] is [None] while the property is undefined. *)
Record Article : Type := mkArticle {
  title : string;
  link : string;
  pubDate : option Z;
  content : option string;
  description : option string;
  feedTitle : option string
}.

Definition set_feedTitle (t : string) (item : Article) : Article :=
  {| title := title item; link := link item; pubDate := pubDate item;
     content := content item; description := description item;
     feedTitle := Some t |}.

(** The object [response.json()] resolves to. *)
Record Payload : Type := mkPayload {
  status : option string;
  message : option string;
  feed : option Feed;
  items : option (list Article)
}.

(** What one call of [fetch] meets: the promise rejects, or a response comes
    back with an HTTP status and a body that is JSON ([Some]) or not. *)
Inductive Response : Type :=
| Unreachable
| Reply (http_status : nat) (body : option Payload).

Definition response_ok (http_status : nat) : bool :=
  (200 <=? http_status)%nat && (http_status <=? 299)%nat.

(** ** Client-local storage

    Only the value under [STORAGE_KEY] matters.  A stored text is taken up to
    what [JSON.parse] makes of it: the empty string, a text the parser
    rejects, or the text of an array of URL strings. *)

Inductive stored_text : Type :=
| EmptyText
| Unparsable
| FeedArray (urls : list string).

Definition truthy (t : stored_text) : bool :=
  match t with EmptyText => false | _ => true end.

Definition JSON_parse (t : stored_text) : completion (list string) :=
  match t with
  | FeedArray urls => Normal urls
  | _ => Throw (SyntaxError "Unexpected token")
  end.

Definition JSON_stringify (feeds : list string) : stored_text := FeedArray feeds.

(** ** The page *)

Inductive MessageType : Type := success | error | warning.

Record MessageBox : Type := mkMessageBox {
  textContent : string;
  className : MessageType;
  hidden : bool
}.

(** Children of [feedContainer]: the "No articles found" card, the summary
    header, and one card per article. *)
Inductive Node : Type :=
| Placeholder
| Summary (count : nat) (titles : string)
| Card (item : Article).

Record Page : Type := mkPage {
  localStorage : option stored_text;   (* the item under STORAGE_KEY *)
  quota_exceeded : bool;               (* localStorage.setItem throws *)
  DEFAULT_FEEDS : list string;         (* elements of the array object *)
  addFeedInput : string;               (* addFeedInput.value *)
  feedsList : list string;             (* entries shown in the dialog *)
  feedContainer : list Node;
  messageBox : MessageBox;
  loadingIndicator : bool;             (* visible *)
  settingsDialog : bool                (* open *)
}.

Definition DEFAULT_FEEDS_literal : list string :=
  ["https://www.theverge.com/rss/index.xml"; "https://www.engadget.com/rss.xml"].

Definition set_localStorage (v : option stored_text) (p : Page) : Page :=
  mkPage v (quota_exceeded p) (DEFAULT_FEEDS p) (addFeedInput p) (feedsList p)
         (feedContainer p) (messageBox p) (loadingIndicator p) (settingsDialog p).

Definition set_DEFAULT_FEEDS (v : list string) (p : Page) : Page :=
  mkPage (localStorage p) (quota_exceeded p) v (addFeedInput p) (feedsList p)
         (feedContainer p) (messageBox p) (loadingIndicator p) (settingsDialog p).

Definition set_addFeedInput (v : string) (p : Page) : Page :=
  mkPage (localStorage p) (quota_exceeded p) (DEFAULT_FEEDS p) v (feedsList p)
         (feedContainer p) (messageBox p) (loadingIndicator p) (settingsDialog p).

Definition set_feedsList (v : list string) (p : Page) : Page :=
  mkPage (localStorage p) (quota_exceeded p) (DEFAULT_FEEDS p) (addFeedInput p) v
         (feedContainer p) (messageBox p) (loadingIndicator p) (settingsDialog p).

Definition set_feedContainer (v : list Node) (p : Page) : Page :=
  mkPage (localStorage p) (quota_exceeded p) (DEFAULT_FEEDS p) (addFeedInput p)
         (feedsList p) v (messageBox p) (loadingIndicator p) (settingsDialog p).

Definition set_messageBox (v : MessageBox) (p : Page) : Page :=
  mkPage (localStorage p) (quota_exceeded p) (DEFAULT_FEEDS p) (addFeedInput p)
         (feedsList p) (feedContainer p) v (loadingIndicator p) (settingsDialog p).

Definition set_loadingIndicator (v : bool) (p : Page) : Page :=
  mkPage (localStorage p) (quota_exceeded p) (DEFAULT_FEEDS p) (addFeedInput p)
         (feedsList p) (feedContainer p) (messageBox p) v (settingsDialog p).

Definition set_settingsDialog (v : bool) (p : Page) : Page :=
  mkPage (localStorage p) (quota_exceeded p) (DEFAULT_FEEDS p) (addFeedInput p)
         (feedsList p) (feedContainer p) (messageBox p) (loadingIndicator p) v.

(** The page as the script finds it when it is loaded. *)
Definition fresh_page (stored : option stored_text) (full : bool) : Page :=
  {| localStorage := stored; quota_exceeded := full;
     DEFAULT_FEEDS := DEFAULT_FEEDS_literal; addFeedInput := "";
     feedsList := []; feedContainer := [];
     messageBox := mkMessageBox "" warning true;
     loadingIndicator := false; settingsDialog := false |}.

(** ** Script code with state and exceptions *)

Definition M (A : Type) : Type := Page -> completion A * Page.

Definition ret {A} (a : A) : M A := fun p => (Normal a, p).

Definition throw {A} (e : exn) : M A := fun p => (Throw e, p).

Definition bind {A B} (m : M A) (k : A -> M B) : M B :=
  fun p => match m p with
           | (Normal a, p') => k a p'
           | (Throw e, p') => (Throw e, p')
           end.

Definition try_catch {A} (m : M A) (handler : exn -> M A) : M A :=
  fun p => match m p with
           | (Throw e, p') => handler e p'
           | done => done
           end.

Definition read {A} (f : Page -> A) : M A := fun p => (Normal (f p), p).

Definition update (f : Page -> Page) : M unit := fun p => (Normal tt, f p).

Definition lift {A} (c : completion A) : M A := fun p => (c, p).

Declare Scope script_scope.
Delimit Scope script_scope with script.
Notation "x <- m ;; k" := (bind m (fun x => k))
  (at level 61, m at next level, right associativity) : script_scope.
Notation "m ;;; k" := (bind m (fun _ => k))
  (at level 61, right associativity) : script_scope.
Local Open Scope script_scope.

(** ** Arrays by reference

    [getFeeds] hands out either the [DEFAULT_FEEDS] array object itself or the
    array [JSON.parse] has just built; [push] and [splice] change whichever
    object the variable refers to. *)

Inductive feeds_ref : Type :=
| TheDefaults
| Parsed (urls : list string).

Definition elements (p : Page) (r : feeds_ref) : list string :=
  match r with
  | TheDefaults => DEFAULT_FEEDS p
  | Parsed urls => urls
  end.

Definition assign (r : feeds_ref) (urls : list string) : M feeds_ref :=
  match r with
  | TheDefaults => fun p => (Normal TheDefaults, set_DEFAULT_FEEDS urls p)
  | Parsed _ => ret (Parsed urls)
  end.

Definition push (r : feeds_ref) (url : string) : M feeds_ref :=
  fun p => assign r (elements p r ++ [url]) p.

(** [Array.prototype.splice(index, 1)]: a negative start counts from the end,
    a start past the end removes nothing. *)
Definition splice_start (len : nat) (index : Z) : nat :=
  if (index <? 0)%Z then Z.to_nat (Z.max (Z.of_nat len + index) 0)
  else Nat.min (Z.to_nat index) len.

Definition splice1 (index : Z) (l : list string) : list string :=
  let start := splice_start (length l) index in
  firstn start l ++ skipn (S start) l.

Definition splice (r : feeds_ref) (index : Z) : M feeds_ref :=
  fun p => assign r (splice1 index (elements p r)) p.

(** [array[index]]: undefined ([None]) outside the array. *)
Definition item_at (l : list string) (index : Z) : option string :=
  if (index <? 0)%Z then None else nth_error l (Z.to_nat index).

(** ** Storage utilities *)

Definition getItem : M (option stored_text) := read localStorage.

Definition setItem (t : stored_text) : M unit :=
  fun p => if quota_exceeded p
           then (Throw (Error "QuotaExceededError"), p)
           else (Normal tt, set_localStorage (Some t) p).

Definition getFeeds : M feeds_ref :=
  try_catch
    (stored <- getItem ;;
     match stored with
     | Some t =>
         if truthy t
         then (urls <- lift (JSON_parse t) ;; ret (Parsed urls))
         else ret TheDefaults
     | None => ret TheDefaults
     end)
    (fun _ => ret TheDefaults).

Definition saveFeeds (feeds : list string) : M unit :=
  try_catch (setItem (JSON_stringify feeds)) (fun _ => ret tt).

Definition showMessage (text : string) (type : MessageType) : M unit :=
  update (set_messageBox (mkMessageBox text type false)).

(** ** Strings of the runtime *)

Definition is_space (c : ascii) : bool :=
  match nat_of_ascii c with
  | 9 | 10 | 11 | 12 | 13 | 32 => true
  | _ => false
  end.

Fixpoint trimStart (s : string) : string :=
  match s with
  | EmptyString => EmptyString
  | String c s' => if is_space c then trimStart s' else s
  end.

Fixpoint trimEnd (s : string) : string :=
  match s with
  | EmptyString => EmptyString
  | String c s' =>
      match trimEnd s' with
      | EmptyString => if is_space c then EmptyString else String c EmptyString
      | t => String c t
      end
  end.

(** [String.prototype.trim], on the white space of the ASCII range. *)
Definition trim (s : string) : string := trimEnd (trimStart s).

Definition is_empty_string (s : string) : bool :=
  match s with EmptyString => true | _ => false end.

(** [array.includes(url)] on an array of strings. *)
Definition includes (l : list string) (url : string) : bool :=
  existsb (String.eqb url) l.

Definition decimal (n : nat) : string := NilEmpty.string_of_uint (Nat.to_uint n).

(** [a || b] on a string that may be absent: the empty string is falsy. *)
Definition or_else (a : option string) (b : string) : string :=
  match a with
  | Some s => if is_empty_string s then b else s
  | None => b
  end.

(** ** The settings dialog *)

Definition urlDisplay (url : string) : string :=
  if (50 <? String.length url)%nat then (substring 0 47 url ++ "...")%string else url.

Definition renderFeedsList : M unit :=
  currentFeeds <- getFeeds ;;
  feeds <- read (fun p => elements p currentFeeds) ;;
  update (set_feedsList []) ;;;
  match feeds with
  | [] => update (set_feedsList ["No feeds added."])
  | _ => update (set_feedsList (map urlDisplay feeds))
  end.

Definition addFeed : M unit :=
  value <- read addFeedInput ;;
  let url := trim value in
  if is_empty_string url then
    showMessage "Feed URL cannot be empty." warning
  else
    currentFeeds <- getFeeds ;;
    feeds <- read (fun p => elements p currentFeeds) ;;
    if includes feeds url then
      showMessage "Feed URL already exists." warning ;;;
      update (set_addFeedInput "")
    else
      currentFeeds <- push currentFeeds url ;;
      feeds <- read (fun p => elements p currentFeeds) ;;
      saveFeeds feeds ;;;
      renderFeedsList ;;;
      update (set_addFeedInput "") ;;;
      showMessage ("Feed added: " ++ substring 0 30 url ++ "...")%string success.

Definition removeFeed (index : Z) : M unit :=
  currentFeeds <- getFeeds ;;
  urlToRemove <- read (fun p => item_at (elements p currentFeeds) index) ;;
  currentFeeds <- splice currentFeeds index ;;
  feeds <- read (fun p => elements p currentFeeds) ;;
  saveFeeds feeds ;;;
  renderFeedsList ;;;
  match urlToRemove with
  | Some u =>
      showMessage ("Feed removed: " ++ substring 0 30 u ++ "...")%string success
  | None =>
      throw (TypeError "Cannot read properties of undefined (reading 'substring')")
  end.

(** ** Rendering the articles *)

Definition renderFeed (items : list Article) (feedSources : list Feed) : M unit :=
  update (set_feedContainer []) ;;;
  match items with
  | [] => update (set_feedContainer [Placeholder])
  | _ =>
      let successfulTitles :=
        String.concat ", " (map (fun f => or_else (feed_title f) "Unknown Feed") feedSources) in
      update (set_feedContainer
                (Summary (length items) (substring 0 100 successfulTitles ++ "...")%string
                 :: map Card items))
  end.

(** The articles on the page, in the order of their cards. *)
Definition rendered (p : Page) : list Article :=
  flat_map (fun n => match n with Card item => [item] | _ => [] end) (feedContainer p).

(** ** [Array.prototype.sort] with a comparator

    The comparator's result is a number: [None] stands for NaN, which the
    sort reads as [+0].  The runtime's algorithm is taken as the stable
    insertion sort: an element goes in front of the first one it does not
    have to follow. *)

Definition SortCompare {A} (comparefn : A -> A -> option Z) (x y : A) : Z :=
  match comparefn x y with
  | Some v => v
  | None => 0%Z
  end.

Fixpoint insert {A} (comparefn : A -> A -> option Z) (x : A) (l : list A) : list A :=
  match l with
  | [] => [x]
  | y :: l' =>
      if (SortCompare comparefn x y <=? 0)%Z then x :: l
      else y :: insert comparefn x l'
  end.

Definition Array_sort {A} (comparefn : A -> A -> option Z) (l : list A) : list A :=
  fold_right (insert comparefn) [] l.

(** [(a, b) => new Date(b.pubDate) - new Date(a.pubDate)] *)
Definition newest_first (a b : Article) : option Z :=
  match pubDate b, pubDate a with
  | Some tb, Some ta => Some (tb - ta)%Z
  | _, _ => None
  end.

(** A second reading of the runtime's algorithm, the stable bottom-up merge
    sort: runs of one element are merged pairwise until one run is left. *)
Fixpoint merge {A} (comparefn : A -> A -> option Z) (l1 : list A) : list A -> list A :=
  match l1 with
  | [] => fun l2 => l2
  | x :: l1' =>
      fix merge_into (l2 : list A) : list A :=
        match l2 with
        | [] => l1
        | y :: l2' =>
            if (SortCompare comparefn x y <=? 0)%Z then x :: merge comparefn l1' l2
            else y :: merge_into l2'
        end
  end.

Fixpoint merge_pairs {A} (comparefn : A -> A -> option Z) (runs : list (list A))
  : list (list A) :=
  match runs with
  | a :: b :: rest => merge comparefn a b :: merge_pairs comparefn rest
  | _ => runs
  end.

Fixpoint merge_runs {A} (passes : nat) (comparefn : A -> A -> option Z)
    (runs : list (list A)) : list A :=
  match passes with
  | O => concat runs
  | S passes' =>
      match runs with
      | [] => []
      | [r] => r
      | _ => merge_runs passes' comparefn (merge_pairs comparefn runs)
      end
  end.

Definition merge_sort {A} (comparefn : A -> A -> option Z) (l : list A) : list A :=
  merge_runs (length l) comparefn (map (fun x => [x]) l).

(** ** The Fetcher *)

Definition MAX_RETRIES : nat := 3.

(** What a call of [loadFeed] does to the outside: requests through the
    proxy for a feed, and timer waits in milliseconds. *)
Inductive Event : Type :=
| Fetch (rssUrl : string)
| Wait (delay : Z).

(** The payload [loadFeed] returns: on that path [data.items] is there and
    [data.feed] has been read. *)
Record Loaded : Type := mkLoaded {
  loaded_feed : Feed;
  loaded_items : list Article
}.

(** How the [try] block of one round ends when it does not throw. *)
Inductive flow : Type :=
| Return (data : Loaded)
| Fallthrough.

Definition status_is (s : string) (data : Payload) : bool :=
  match status data with
  | Some s' => String.eqb s' s
  | None => false
  end.

Definition and_then {A B} (c : completion A) (k : A -> completion B) : completion B :=
  match c with
  | Normal a => k a
  | Throw e => Throw e
  end.

(** State of the [while] loop: the counter [attempt], the number of requests
    made so far, and the events so far. *)
Record loop : Type := mkLoop {
  attempt : nat;
  requests : nat;
  events : list Event
}.

Section Fetcher.

(** [new URL(rssUrl).hostname], which throws on a text that is no URL. *)
Variable hostname : string -> completion string.

(** The body of the [try] block, given what [fetch] meets. *)
Definition try_block (rssUrl : string) (r : Response) : completion flow :=
  match r with
  | Unreachable => Throw (TypeError "Failed to fetch")
  | Reply http_status body =>
      if negb (response_ok http_status) then
        Throw (Error ("HTTP error! Status: " ++ decimal http_status
                      ++ " for " ++ rssUrl)%string)
      else
        match body with
        | None => Throw (SyntaxError "Unexpected token")
        | Some data =>
            match (if status_is "ok" data then items data else None) with
            | Some its =>
                match feed data with
                | None =>
                    Throw (TypeError "Cannot read properties of undefined (reading 'title')")
                | Some f =>
                    and_then
                      (match feed_title f with
                       | Some t => if is_empty_string t then hostname rssUrl else Normal t
                       | None => hostname rssUrl
                       end)
                      (fun feedTitle =>
                         Normal (Return (mkLoaded f (map (set_feedTitle feedTitle) its))))
                end
            | None =>
                if status_is "error" data then
                  Throw (Error ("Proxy Error: "
                                ++ or_else (message data)
                                           "Failed to parse RSS feed via proxy.")%string)
                else Normal Fallthrough
            end
        end
  end.

(** One round of [while (attempt < MAX_RETRIES)]: either the loop goes
    round again, or [loadFeed] returns. *)
Definition round (rssUrl : string) (net : nat -> Response) (st : loop)
  : loop + (option Loaded * list Event) :=
  if (attempt st <? MAX_RETRIES)%nat then
    let fetched := events st ++ [Fetch rssUrl] in
    match try_block rssUrl (net (requests st)) with
    | Normal (Return data) => inr (Some data, fetched)
    | Normal Fallthrough => inl (mkLoop (attempt st) (S (requests st)) fetched)
    | Throw _ =>
        let attempt' := S (attempt st) in
        if (MAX_RETRIES <=? attempt')%nat then inr (None, fetched)
        else
          let delay := (2 ^ Z.of_nat attempt' * 1000)%Z in
          inl (mkLoop attempt' (S (requests st)) (fetched ++ [Wait delay]))
    end
  else inr (None, events st).

Fixpoint rounds (fuel : nat) (rssUrl : string) (net : nat -> Response) (st : loop)
  : option (option Loaded * list Event) :=
  match fuel with
  | O => None
  | S fuel' =>
      match round rssUrl net st with
      | inl st' => rounds fuel' rssUrl net st'
      | inr done => Some done
      end
  end.

(** [loadFeed(rssUrl)]: [Some (Some data, _)] when it returns the payload,
    [Some (None, _)] when it returns null, [None] when the fuel runs out
    before it returns. *)
Definition loadFeed (fuel : nat) (rssUrl : string) (net : nat -> Response)
  : option (option Loaded * list Event) :=
  if is_empty_string rssUrl then Some (None, [])
  else rounds fuel rssUrl net (mkLoop 0 0 []).

(** ** The Aggregator *)

(** [feedUrls.map(url => loadFeed(url))] under [Promise.all]: call [i]
    meets the responses [net i]; the whole settles when every call has. *)
Fixpoint launch (fuel : nat) (net : nat -> nat -> Response) (i : nat) (feedUrls : list string)
  : option (list (option Loaded * list Event)) :=
  match feedUrls with
  | [] => Some []
  | url :: rest =>
      match loadFeed fuel url (net i), launch fuel net (S i) rest with
      | Some r, Some rs => Some (r :: rs)
      | _, _ => None
      end
  end.

Definition not_null {A} (results : list (option A)) : list A :=
  flat_map (fun r => match r with Some a => [a] | None => [] end) results.

(** From [const successfulLoads = ...] to the end of [loadAllFeeds]. *)
Definition settle (results : list (option Loaded)) : M unit :=
  let successfulLoads := not_null results in
  let allItems :=
    fold_left (fun acc data => acc ++ loaded_items data) successfulLoads [] in
  let successfulFeeds := map loaded_feed successfulLoads in
  let allItems := Array_sort newest_first allItems in
  update (set_loadingIndicator false) ;;;
  if (0 <? length successfulLoads)%nat then
    renderFeed allItems successfulFeeds ;;;
    showMessage ("Successfully loaded " ++ decimal (length successfulLoads)
                 ++ " feed(s) with " ++ decimal (length allItems)
                 ++ " total articles.")%string success
  else
    renderFeed [] [] ;;;
    showMessage
      "Failed to load any of the requested feeds after all retries. Open Settings to verify URLs."
      error.

(** A run of [loadAllFeeds]: how it completes, the page it leaves, and the
    events of each Fetcher call it issued. *)
Record Run : Type := mkRun {
  completed : completion unit;
  page : Page;
  calls : list (list Event)
}.

Definition finish (m : M unit) (p : Page) (calls : list (list Event)) : Run :=
  let (c, p') := m p in mkRun c p' calls.

Definition loadAllFeeds (fuel : nat) (net : nat -> nat -> Response) (p : Page)
  : option Run :=
  match getFeeds p with
  | (Throw e, p0) => Some (mkRun (Throw e) p0 [])
  | (Normal feedUrls, p0) =>
      match elements p0 feedUrls with
      | [] =>
          Some (finish (showMessage "No feeds configured. Open Settings to add a URL." warning ;;;
                        update (set_feedContainer [])) p0 [])
      | urls =>
          let p1 :=
            set_messageBox (mkMessageBox (textContent (messageBox p0))
                                         (className (messageBox p0)) true)
              (set_feedContainer []
                 (set_loadingIndicator true (set_settingsDialog false p0))) in
          match launch fuel net 0 urls with
          | None => None
          | Some results => Some (finish (settle (map fst results)) p1 (map snd results))
          end
      end
  end.

End Fetcher.

(** ** Reading the page *)

(** The feed list as the script reads it: what [getFeeds()] evaluates to. *)
Definition current_feeds (p : Page) : list string :=
  match getFeeds p with
  | (Normal r, p') => elements p' r
  | (Throw _, _) => []
  end.

Definition reference_of (stored : option stored_text) : feeds_ref :=
  match stored with
  | Some (FeedArray urls) => Parsed urls
  | _ => TheDefaults
  end.

Definition shown_entries (feeds : list string) : list string :=
  match feeds with
  | [] => ["No feeds added."]
  | _ => map urlDisplay feeds
  end.

(** ** Reading a run of the Fetcher *)


(** An HTTP success whose JSON body has a status that is neither "error" nor
    "ok" together with an items array. *)
Definition stalling (r : Response) : bool :=
  match r with
  | Reply http_status (Some data) =>
      response_ok http_status
      && negb (status_is "ok" data && match items data with Some _ => true | None => false end)
      && negb (status_is "error" data)
  | _ => false
  end.

Definition start : loop := mkLoop 0 0 [].

(** The loop after [n] more rounds, or what [loadFeed] returned on the way. *)
Fixpoint after_rounds (hostname : string -> completion string) (n : nat)
    (rssUrl : string) (net : nat -> Response) (st : loop)
  : loop + (option Loaded * list Event) :=
  match n with
  | O => inl st
  | S n' =>
      match round hostname rssUrl net st with
      | inl st' => after_rounds hostname n' rssUrl net st'
      | inr done => inr done
      end
  end.

Definition is_fetch (e : Event) : bool :=
  match e with Fetch _ => true | Wait _ => false end.

(** Number of requests in a run. *)
Definition fetches (run : list Event) : nat := length (filter is_fetch run).

(** The events of a call in which [failed] attempts fail, each followed by
    its backoff, before a last attempt after which nothing is waited for. *)
Definition backoff_schedule (rssUrl : string) (failed : nat) : list Event :=
  flat_map (fun i => [Fetch rssUrl; Wait (2 ^ Z.of_nat i * 1000)%Z]) (seq 1 failed)
  ++ [Fetch rssUrl].

(** ** Reading the rendered sequence *)

(** Wherever two articles with parsed timestamps stand in the sequence, the
    one with the strictly greater timestamp stands first. *)
Definition newer_stands_first (l : list Article) : Prop :=
  forall (i j : nat) (a b : Article) (ta tb : Z),
    nth_error l i = Some a -> nth_error l j = Some b ->
    pubDate a = Some ta -> pubDate b = Some tb ->
    (ta > tb)%Z -> (i < j)%nat.

Definition stamped (item : Article) : Prop := feedTitle item <> None.

(** An attempt fails when its [try] block throws, whatever is thrown; it
    returns when the block reaches [return data]. *)
Definition throws (hostname : string -> completion string) (rssUrl : string)
    (r : Response) : Prop :=
  exists e, try_block hostname rssUrl r = Throw e.

Definition returns (hostname : string -> completion string) (rssUrl : string)
    (r : Response) (data : Loaded) : Prop :=
  try_block hostname rssUrl r = Normal (Return data).

(** The loop state when [i] attempts have failed and been waited for. *)
Definition waited (rssUrl : string) (i : nat) : loop :=
  mkLoop i i
    (flat_map (fun i => [Fetch rssUrl; Wait (2 ^ Z.of_nat i * 1000)%Z]) (seq 1 i)).

(** The concatenation, in the order of the calls, of the article sequences of
    the calls that returned a payload. *)
Definition merged (results : list (option Loaded)) : list Article :=
  concat (map loaded_items (not_null results)).

Definition parsed (item : Article) : Prop := pubDate item <> None.

Definition timestamp (item : Article) : Z :=
  match pubDate item with
  | Some t => t
  | None => 0%Z
  end.

(** Not older than: the order the comparator sorts by. *)
Definition not_older (a b : Article) : Prop := (timestamp a >= timestamp b)%Z.

(** ** Worked inputs

    A URL reader for the worked inputs (none of them needs the host), and
    payloads of the proxy. *)

Definition simple_host (rssUrl : string) : completion string := Normal rssUrl.

Definition article (t : string) (published : option Z) : Article :=
  mkArticle t ("https://a.example/" ++ t)%string published None (Some "<p>text</p>") None.

Definition ok_payload (feed_name : string) (its : list Article) : Payload :=
  mkPayload (Some "ok") None (Some (mkFeed (Some feed_name) (Some "https://a.example/"))) (Some its).

(** Status "ok" and no items array. *)
Definition no_items_payload : Payload :=
  mkPayload (Some "ok") None (Some (mkFeed (Some "A") None)) None.

(** A proxy that answers once without items and from then on in full. *)
Definition recovering (k : nat) : Response :=
  match k with
  | O => Reply 200 (Some no_items_payload)
  | _ => Reply 200 (Some (ok_payload "A" [article "one" (Some 1000%Z)]))
  end.

(** A proxy that answers once without items and cannot be reached again. *)
Definition stalls_once (k : nat) : Response :=
  match k with
  | O => Reply 200 (Some no_items_payload)
  | _ => Unreachable
  end.

Definition two_feeds_page : Page :=
  fresh_page (Some (FeedArray ["https://a.example/rss"; "https://b.example/rss"])) false.

(** The first feed answers with four articles, the first and the third
    without a date that parses; the second feed is unreachable. *)
Definition undated_articles : list Article :=
  [article "undated-1" None; article "old" (Some 1000%Z);
   article "undated-2" None; article "new" (Some 2000%Z)].

Definition undated_between (i k : nat) : Response :=
  match i with
  | O => Reply 200 (Some (ok_payload "A" undated_articles))
  | _ => Unreachable
  end.

(** The first feed answers in full; the second one answers every request
    with status "ok" and no items. *)
Definition second_feed_stalls (i k : nat) : Response :=
  match i with
  | O => Reply 200 (Some (ok_payload "A" [article "one" (Some 1000%Z)]))
  | _ => Reply 200 (Some no_items_payload)
  end.

(** The first feed answers with two articles, newest first; the second one
    answers every request with HTTP 500. *)
Definition a_succeeds_b_fails (i k : nat) : Response :=
  match i with
  | O => Reply 200 (Some (ok_payload "A" [article "first" (Some 2000%Z);
                                          article "second" (Some 1000%Z)]))
  | _ => Reply 500 None
  end.

(** ** Reading the settings dialog *)

(** The list without its element at position [i]. *)
Definition remove_at (i : nat) (l : list string) : list string :=
  firstn i l ++ skipn (S i) l.

(** The page [addFeed] leaves when it adds [url]: the array in hand is
    extended, written if the storage takes it, the dialog redrawn, the input
    cleared and the success message shown. *)
Definition after_push (url : string) (p : Page) : Page :=
  match reference_of (localStorage p) with
  | TheDefaults => set_DEFAULT_FEEDS (current_feeds p ++ [url]) p
  | Parsed _ => p
  end.

Definition after_save (feeds : list string) (p : Page) : Page :=
  if quota_exceeded p then p else set_localStorage (Some (FeedArray feeds)) p.

Definition redrawn (p : Page) : Page :=
  set_feedsList (shown_entries (current_feeds p)) p.

(** The page [removeFeed] leaves behind before its message. *)
Definition after_splice (index : Z) (p : Page) : Page :=
  match reference_of (localStorage p) with
  | TheDefaults => set_DEFAULT_FEEDS (splice1 index (current_feeds p)) p
  | Parsed _ => p
  end.

(** A text of white space only. *)
Fixpoint blank (s : string) : bool :=
  match s with
  | EmptyString => true
  | String c s' => is_space c && blank s'
  end.

(** ** Reading the Fetcher further *)

(** [data.feed.title || new URL(rssUrl).hostname] *)
Definition feedTitle_for (hostname : string -> completion string) (rssUrl : string)
    (f : Feed) : completion string :=
  match feed_title f with
  | Some t => if is_empty_string t then hostname rssUrl else Normal t
  | None => hostname rssUrl
  end.

(** The delays of the waits of a run, in their order. *)
Definition waits (run : list Event) : list Z :=
  flat_map (fun e => match e with Wait delay => [delay] | Fetch _ => [] end) run.

(** The URLs requested in a run, in their order. *)
Definition requested (run : list Event) : list string :=
  flat_map (fun e => match e with Fetch url => [url] | Wait _ => [] end) run.

(** What holds of the loop state at the head of every round: the waits so
    far are the backoffs of the attempts counted, every request was for the
    feed, and fewer than [MAX_RETRIES] attempts are counted. *)
Definition loop_inv (rssUrl : string) (st : loop) : Prop :=
  waits (events st) = map (fun i => (2 ^ Z.of_nat i * 1000)%Z) (seq 1 (attempt st)) /\
  Forall (eq rssUrl) (requested (events st)) /\
  (attempt st <= requests st)%nat /\
  fetches (events st) = requests st /\
  (attempt st < MAX_RETRIES)%nat.

(** ** Reading the Aggregator further *)

(** The children [renderFeed] gives the container. *)
Definition drawn (its : list Article) (feedSources : list Feed) : list Node :=
  match its with
  | [] => [Placeholder]
  | _ =>
      Summary (length its)
              (substring 0 100
                 (String.concat ", "
                    (map (fun f => or_else (feed_title f) "Unknown Feed") feedSources))
               ++ "...")%string
      :: map Card its
  end.

(** The message [loadAllFeeds] ends with. *)
Definition closing_message (loads : list Loaded) : MessageBox :=
  match loads with
  | [] =>
      mkMessageBox
        "Failed to load any of the requested feeds after all retries. Open Settings to verify URLs."
        error false
  | _ =>
      mkMessageBox ("Successfully loaded " ++ decimal (length loads)
                    ++ " feed(s) with "
                    ++ decimal (length (concat (map loaded_items loads)))
                    ++ " total articles.")%string success false
  end.

Definition total (delays : list Z) : Z := fold_right Z.add 0%Z delays.

(** The page while the calls are under way. *)
Definition loading (p : Page) : Page :=
  set_messageBox (mkMessageBox (textContent (messageBox p)) (className (messageBox p)) true)
    (set_feedContainer [] (set_loadingIndicator true (set_settingsDialog false p))).

(** The page [loadAllFeeds] leaves for the results of its calls. *)
Definition settled (results : list (option Loaded)) (p : Page) : Page :=
  set_messageBox (closing_message (not_null results))
    (set_feedContainer
       (match not_null results with
        | [] => [Placeholder]
        | loads => drawn (Array_sort newest_first (merged results)) (map loaded_feed loads)
        end)
       (set_loadingIndicator false (loading p))).

(** ** The settings dialog as the user drives it

    The listeners that [init] and [renderFeedsList] attach: the settings
    button redraws the list and opens the dialog, the close button closes it,
    the add button (and Enter in the input) calls [addFeed], and the remove
    button of an entry calls [removeFeed] with the entry's index.  What a
    listener throws goes to the console; the page stays as the listener left
    it. *)

Inductive UserEvent : Type :=
| OpenSettings
| CloseSettings
| TypeUrl (text : string)
| ClickAdd
| ClickRemove (index : nat).

Definition handle (e : UserEvent) (p : Page) : Page :=
  match e with
  | OpenSettings => set_settingsDialog true (snd (renderFeedsList p))
  | CloseSettings => set_settingsDialog false p
  | TypeUrl text => set_addFeedInput text p
  | ClickAdd => snd (addFeed p)
  | ClickRemove index => snd (removeFeed (Z.of_nat index) p)
  end.

Definition session (events : list UserEvent) (p : Page) : Page :=
  fold_left (fun q e => handle e q) events p.

(** A feed list without repetition and without the empty URL. *)
Definition tidy (l : list string) : Prop := NoDup l /\ ~ In "" l.

(** Both lists [getFeeds] can hand out are tidy. *)
Definition tidy_page (p : Page) : Prop :=
  tidy (DEFAULT_FEEDS p) /\
  forall l, localStorage p = Some (FeedArray l) -> tidy l.


(** ** The later rewrite of the script

    Its [getFeeds] parses without a [try], and its Fetcher is a bounded [for]
    loop that hands back whatever JSON arrives and rethrows on the last
    attempt. *)

Module ScriptJs.

Definition getFeeds : M feeds_ref :=
  stored <- getItem ;;
  match stored with
  | Some t =>
      if truthy t
      then (urls <- lift (JSON_parse t) ;; ret (Parsed urls))
      else ret TheDefaults
  | None => ret TheDefaults
  end.

Definition try_block (r : Response) : completion Payload :=
  match r with
  | Unreachable => Throw (TypeError "Failed to fetch")
  | Reply http_status body =>
      if negb (response_ok http_status) then Throw (Error "Network response failed")
      else
        match body with
        | Some data => Normal data
        | None => Throw (SyntaxError "Unexpected token")
        end
  end.

(** [for (let i = 0; i < retries; i++)], with [remaining = retries - i];
    leaving the loop returns undefined ([Normal None]). *)
Fixpoint attempts (remaining i retries : nat) (backoff : Z) (url : string)
    (net : nat -> Response) (events : list Event)
  : completion (option Payload) * list Event :=
  match remaining with
  | O => (Normal None, events)
  | S remaining' =>
      let fetched := events ++ [Fetch url] in
      match try_block (net i) with
      | Normal data => (Normal (Some data), fetched)
      | Throw err =>
          if (i =? retries - 1)%nat then (Throw err, fetched)
          else attempts remaining' (S i) retries backoff url net
                        (fetched ++ [Wait (backoff * 2 ^ Z.of_nat i)%Z])
      end
  end.

Definition fetchFeedWithRetry (url : string) (net : nat -> Response)
  : completion (option Payload) * list Event :=
  attempts 3 0 3 1000%Z url net [].

Definition saveFeeds (feeds : list string) : M unit :=
  setItem (JSON_stringify feeds).

Definition renderFeedsList : M unit :=
  feeds <- getFeeds ;;
  urls <- read (fun p => elements p feeds) ;;
  update (set_feedsList urls).

Definition removeFeed (index : Z) : M unit :=
  feeds <- getFeeds ;;
  feeds <- splice feeds index ;;
  urls <- read (fun p => elements p feeds) ;;
  saveFeeds urls ;;;
  renderFeedsList.

Definition addFeed : M unit :=
  value <- read addFeedInput ;;
  let url := trim value in
  if is_empty_string url then ret tt
  else
    feeds <- getFeeds ;;
    urls <- read (fun p => elements p feeds) ;;
    if includes urls url then ret tt
    else
      feeds <- push feeds url ;;
      urls <- read (fun p => elements p feeds) ;;
      saveFeeds urls ;;;
      update (set_addFeedInput "") ;;;
      renderFeedsList.

(** [text.replace(/<[^>]*>/g, '')]: from a "<" that a ">" follows somewhere,
    everything up to the first ">" is dropped. *)
Fixpoint has_gt (s : string) : bool :=
  match s with
  | EmptyString => false
  | String c s' => Ascii.eqb c ">" || has_gt s'
  end.

Fixpoint strip (inside : bool) (s : string) : string :=
  match s with
  | EmptyString => EmptyString
  | String c s' =>
      if inside then (if Ascii.eqb c ">" then strip false s' else strip true s')
      else if Ascii.eqb c "<" && has_gt s' then strip true s'
      else String c (strip false s')
  end.

Definition strip_tags (s : string) : string := strip false s.

(** The text of a card: [item.description.replace(...).substring(0, 120)]
    and "...". *)
Definition preview (item : Article) : completion string :=
  match description item with
  | Some d => Normal (substring 0 120 (strip_tags d) ++ "...")%string
  | None => Throw (TypeError "Cannot read properties of undefined (reading 'replace')")
  end.

(** [items.forEach]: the card of an article is appended once its markup has
    been built. *)
Fixpoint append_cards (its : list Article) : M unit :=
  match its with
  | [] => ret tt
  | item :: rest =>
      _ <- lift (preview item) ;;
      update (fun p => set_feedContainer (feedContainer p ++ [Card item]) p) ;;;
      append_cards rest
  end.

Definition renderFeed (its : list Article) : M unit :=
  update (set_feedContainer []) ;;;
  match its with
  | [] => update (set_feedContainer [Placeholder])
  | _ => append_cards its
  end.

(** What one round of the [for ... of] loop adds to [allItems]: the items of
    a payload with status "ok"; whatever is thrown inside the [try] (by the
    fetch, by reading an undefined [data], by spreading missing items) is
    caught and adds nothing. *)
Definition contribution (fetched : completion (option Payload)) : list Article :=
  match fetched with
  | Normal (Some data) =>
      if status_is "ok" data
      then match items data with Some its => its | None => [] end
      else []
  | Normal None => []
  | Throw _ => []
  end.

Fixpoint gather (urls : list string) (net : nat -> nat -> Response) (i : nat)
    (allItems : list Article) : list Article * list (list Event) :=
  match urls with
  | [] => (allItems, [])
  | url :: rest =>
      let (fetched, call) := fetchFeedWithRetry url (net i) in
      let (final, calls) := gather rest net (S i) (allItems ++ contribution fetched) in
      (final, call :: calls)
  end.

Definition loadAllFeeds (net : nat -> nat -> Response) (p : Page)
  : completion unit * Page * list (list Event) :=
  match getFeeds p with
  | (Throw e, p0) => (Throw e, p0, [])
  | (Normal feeds, p0) =>
      let urls := elements p0 feeds in
      let p1 := set_feedContainer [] (set_loadingIndicator true p0) in
      let (allItems, calls) := gather urls net 0 [] in
      let sorted := Array_sort newest_first allItems in
      let (c, p2) := renderFeed sorted (set_loadingIndicator false p1) in
      (c, p2, calls)
  end.

(** A text in which no "<" is followed, anywhere later, by a ">". *)
Fixpoint tagless (s : string) : bool :=
  match s with
  | EmptyString => true
  | String c s' => negb (Ascii.eqb c "<" && has_gt s') && tagless s'
  end.

Fixpoint has_lt (s : string) : bool :=
  match s with
  | EmptyString => false
  | String c s' => Ascii.eqb c "<" || has_lt s'
  end.

End ScriptJs.

(** An article with a description. *)
Definition described (item : Article) : Prop := description item <> None.

(** ** The script of the comma-separated input

    The version of the script that reads its feed URLs from one text input:
    [urlInput.value.split(',').map(url => url.trim()).filter(Boolean)]. *)

Module MultiFeed.

(** [value.split(',')] *)
Fixpoint split_commas (value : string) : list string :=
  match value with
  | EmptyString => [EmptyString]
  | String c rest =>
      if Ascii.eqb c ","
      then EmptyString :: split_commas rest
      else
        match split_commas rest with
        | piece :: pieces => String c piece :: pieces
        | [] => [String c EmptyString]
        end
  end.

Definition parse_urls (value : string) : list string :=
  filter (fun url => negb (is_empty_string url)) (map trim (split_commas value)).

(** A text made of commas and white space only. *)
Fixpoint only_separators (s : string) : bool :=
  match s with
  | EmptyString => true
  | String c s' => (Ascii.eqb c "," || is_space c) && only_separators s'
  end.

Fixpoint has_comma (s : string) : bool :=
  match s with
  | EmptyString => false
  | String c s' => Ascii.eqb c "," || has_comma s'
  end.

(** A URL as one types it: not empty, no comma, no white space at either
    end. *)
Definition clean (url : string) : Prop :=
  url <> "" /\ has_comma url = false /\ trim url = url.

End MultiFeed.

Definition starts_clean (s : string) : bool :=
  match s with
  | EmptyString => true
  | String c _ => negb (is_space c)
  end.

(** * Properties *)

(** ** The stored feed list *)

(** [getFeeds] completes normally in every state of the storage, leaves the
    page as it is, and falls back to the [DEFAULT_FEEDS] object itself. *)
Lemma getFeeds_eq (p : Page) :
  getFeeds p = (Normal (reference_of (localStorage p)), p).
Proof.
  unfold getFeeds, try_catch, bind, getItem, read, lift, ret.
  destruct (localStorage p) as [[ | | urls] | ]; reflexivity.
Qed.

Lemma current_feeds_eq (p : Page) :
  current_feeds p = elements p (reference_of (localStorage p)).
Proof. unfold current_feeds. rewrite getFeeds_eq. reflexivity. Qed.

Lemma is_empty_string_false (s : string) : s <> "" -> is_empty_string s = false.
Proof. destruct s; [congruence | reflexivity]. Qed.

Lemma includes_In (l : list string) (url : string) : In url l -> includes l url = true.
Proof.
  intros H. unfold includes. apply existsb_exists.
  exists url. split; [exact H | apply String.eqb_refl].
Qed.



(** ** Removing past the end *)

Lemma splice1_past_end (l : list string) (index : Z) :
  (Z.of_nat (length l) <= index)%Z -> splice1 index l = l.
Proof.
  intros H. unfold splice1, splice_start.
  destruct (index <? 0)%Z eqn:E; [apply Z.ltb_lt in E; lia | ].
  rewrite Nat.min_r by lia.
  rewrite firstn_all, skipn_all2 by lia. apply app_nil_r.
Qed.

Lemma item_at_past_end (l : list string) (index : Z) :
  (Z.of_nat (length l) <= index)%Z -> item_at l index = None.
Proof.
  intros H. unfold item_at.
  destruct (index <? 0)%Z; [reflexivity | ].
  apply nth_error_None. lia.
Qed.

Lemma set_DEFAULT_FEEDS_same (p : Page) : set_DEFAULT_FEEDS (DEFAULT_FEEDS p) p = p.
Proof. destruct p; reflexivity. Qed.

Lemma renderFeedsList_eq (p : Page) :
  renderFeedsList p = (Normal tt, set_feedsList (shown_entries (current_feeds p)) p).
Proof.
  rewrite current_feeds_eq.
  unfold renderFeedsList, bind at 1. rewrite getFeeds_eq.
  unfold bind at 1, read.
  destruct p as [st q d i fl fc mb li sd]; cbn.
  destruct (elements _ _); reflexivity.
Qed.

Lemma saveFeeds_eq (feeds : list string) (p : Page) :
  saveFeeds feeds p
  = (Normal tt, if quota_exceeded p then p else set_localStorage (Some (FeedArray feeds)) p).
Proof.
  unfold saveFeeds, try_catch, setItem, JSON_stringify, ret.
  destruct (quota_exceeded p); reflexivity.
Qed.

(** C10.  For an index at or past the length of the stored feed list,
    [removeFeed] splices nothing out, saves the list as it was (the item
    written, when the storage takes it, is that very list, and the list read
    back is the one before), redraws the dialog, and then throws a TypeError
    from [urlToRemove.substring] instead of showing its message. *)
Theorem removeFeed_past_end_throws (p : Page) (index : Z) :
  (Z.of_nat (length (current_feeds p)) <= index)%Z ->
  exists p',
    removeFeed index p
    = (Throw (TypeError "Cannot read properties of undefined (reading 'substring')"), p') /\
    current_feeds p' = current_feeds p /\
    (quota_exceeded p = false -> localStorage p' = Some (FeedArray (current_feeds p))) /\
    messageBox p' = messageBox p.
Proof.
  intros H. rewrite current_feeds_eq in H.
  unfold removeFeed, bind at 1. rewrite getFeeds_eq.
  unfold bind at 1, read. rewrite (item_at_past_end _ _ H).
  unfold bind at 1, splice. rewrite (splice1_past_end _ _ H).
  assert (Hassign :
            assign (reference_of (localStorage p))
                   (elements p (reference_of (localStorage p))) p
            = (Normal (reference_of (localStorage p)), p)).
  { destruct (reference_of (localStorage p)); cbn; [ | reflexivity].
    rewrite set_DEFAULT_FEEDS_same. reflexivity. }
  rewrite Hassign.
  unfold bind at 1, read. unfold bind at 1. rewrite saveFeeds_eq.
  unfold bind at 1. rewrite renderFeedsList_eq.
  eexists. split; [reflexivity | ].
  rewrite !current_feeds_eq.
  destruct (quota_exceeded p) eqn:Hq; cbn.
  - split; [reflexivity | split; [discriminate | reflexivity]].
  - destruct (reference_of (localStorage p)); cbn; auto.
Qed.

Lemma removeFeed_past_end_throws_witness :
  let p := fresh_page (Some (FeedArray ["https://a.example/rss"; "https://b.example/rss"])) false in
  exists p',
    removeFeed 2 p
    = (Throw (TypeError "Cannot read properties of undefined (reading 'substring')"), p') /\
    current_feeds p' = current_feeds p /\
    (quota_exceeded p = false -> localStorage p' = Some (FeedArray (current_feeds p))) /\
    messageBox p' = messageBox p.
Proof.
  intros p. apply (removeFeed_past_end_throws p 2). vm_compute. discriminate.
Defined.

(** ** The retry loop *)

Section FetcherProperties.

Variable hostname : string -> completion string.


Lemma stalling_falls_through (rssUrl : string) (r : Response) :
  stalling r = true -> try_block hostname rssUrl r = Normal Fallthrough.
Proof.
  destruct r as [ | s [data | ]]; cbn; try discriminate.
  intros H. apply andb_prop in H. destruct H as [H Herr].
  apply andb_prop in H. destruct H as [Hok Hnot].
  rewrite Hok. cbn.
  apply negb_true_iff in Herr. rewrite Herr.
  apply negb_true_iff in Hnot.
  destruct (status_is "ok" data); [ | reflexivity].
  destruct (items data); [discriminate | reflexivity].
Qed.

(** A round in which the [try] block throws. *)
Lemma round_throw (rssUrl : string) (net : nat -> Response) (st : loop) :
  (attempt st < MAX_RETRIES)%nat ->
  throws hostname rssUrl (net (requests st)) ->
  round hostname rssUrl net st
  = if (MAX_RETRIES <=? S (attempt st))%nat
    then inr (None, events st ++ [Fetch rssUrl])
    else inl (mkLoop (S (attempt st)) (S (requests st))
                     ((events st ++ [Fetch rssUrl])
                        ++ [Wait (2 ^ Z.of_nat (S (attempt st)) * 1000)%Z])).
Proof.
  intros Ha [e He]. unfold round.
  apply Nat.ltb_lt in Ha. rewrite Ha, He. reflexivity.
Qed.

Lemma round_return (rssUrl : string) (net : nat -> Response) (st : loop) (data : Loaded) :
  (attempt st < MAX_RETRIES)%nat ->
  returns hostname rssUrl (net (requests st)) data ->
  round hostname rssUrl net st = inr (Some data, events st ++ [Fetch rssUrl]).
Proof.
  intros Ha He. unfold round, returns in *.
  apply Nat.ltb_lt in Ha. rewrite Ha, He. reflexivity.
Qed.

Lemma round_stall (rssUrl : string) (net : nat -> Response) (st : loop) :
  (attempt st < MAX_RETRIES)%nat ->
  stalling (net (requests st)) = true ->
  round hostname rssUrl net st
  = inl (mkLoop (attempt st) (S (requests st)) (events st ++ [Fetch rssUrl])).
Proof.
  intros Ha Hs. unfold round.
  apply Nat.ltb_lt in Ha. rewrite Ha, (stalling_falls_through rssUrl _ Hs). reflexivity.
Qed.

Lemma rounds_more_fuel (fuel fuel' : nat) (rssUrl : string) (net : nat -> Response)
    (st : loop) (done : option Loaded * list Event) :
  rounds hostname fuel rssUrl net st = Some done ->
  (fuel <= fuel')%nat ->
  rounds hostname fuel' rssUrl net st = Some done.
Proof.
  revert fuel' st. induction fuel as [ | fuel IH]; intros fuel' st H Hle.
  - discriminate.
  - destruct fuel' as [ | fuel']; [lia | ].
    cbn in *. destruct (round hostname rssUrl net st) as [st' | d].
    + apply IH; [exact H | lia].
    + exact H.
Qed.

Lemma rounds_through_failures (rssUrl : string) (net : nat -> Response) (failed i : nat) :
  (forall k, (k < failed)%nat -> throws hostname rssUrl (net k)) ->
  (failed < MAX_RETRIES)%nat ->
  (i <= failed)%nat ->
  forall fuel,
    rounds hostname (i + fuel) rssUrl net start
    = rounds hostname fuel rssUrl net (waited rssUrl i).
Proof.
  intros Hthrow Hlt. induction i as [ | i IH]; intros Hi fuel.
  - reflexivity.
  - replace (S i + fuel)%nat with (i + S fuel)%nat by lia.
    rewrite IH by lia. cbn [rounds].
    rewrite round_throw; cbn [waited attempt requests events].
    + replace (MAX_RETRIES <=? S i)%nat with false
        by (symmetry; apply Nat.leb_gt; lia).
      f_equal. unfold waited. f_equal.
      rewrite seq_S, flat_map_app. cbn. rewrite <- app_assoc. reflexivity.
    + lia.
    + apply Hthrow. lia.
Qed.

Lemma loadFeed_schedule (rssUrl : string) (net : nat -> Response) (fuel failed : nat) :
  rssUrl <> "" ->
  (MAX_RETRIES <= fuel)%nat ->
  (failed < MAX_RETRIES)%nat ->
  (forall k, (k < failed)%nat -> throws hostname rssUrl (net k)) ->
  (forall data, returns hostname rssUrl (net failed) data ->
     loadFeed hostname fuel rssUrl net = Some (Some data, backoff_schedule rssUrl failed)) /\
  (S failed = MAX_RETRIES -> throws hostname rssUrl (net failed) ->
     loadFeed hostname fuel rssUrl net = Some (None, backoff_schedule rssUrl failed)).
Proof.
  intros Hurl Hfuel Hlt Hthrow.
  unfold loadFeed. rewrite (is_empty_string_false _ Hurl).
  assert (Hgo : forall done,
             round hostname rssUrl net (waited rssUrl failed) = inr done ->
             rounds hostname fuel rssUrl net start = Some done).
  { intros done Hdone.
    apply rounds_more_fuel with (fuel := (failed + 1)%nat); [ | lia].
    rewrite (rounds_through_failures rssUrl net failed failed Hthrow Hlt (le_n _)).
    cbn [rounds]. rewrite Hdone. reflexivity. }
  split.
  - intros data Hret. apply Hgo.
    rewrite (round_return rssUrl net (waited rssUrl failed) data); [reflexivity | exact Hlt | exact Hret].
  - intros Hlast Hth. apply Hgo.
    rewrite round_throw; [ | exact Hlt | exact Hth].
    cbn [waited attempt]. rewrite Hlast, Nat.leb_refl. reflexivity.
Qed.

End FetcherProperties.






(** ** Replies that are neither a success nor a failure *)

Lemma rounds_after_rounds (hostname : string -> completion string) (fuel : nat)
    (rssUrl : string) (net : nat -> Response) (st : loop) :
  rounds hostname fuel rssUrl net st
  = match after_rounds hostname fuel rssUrl net st with
    | inl _ => None
    | inr done => Some done
    end.
Proof.
  revert st. induction fuel as [ | fuel IH]; intros st; cbn.
  - reflexivity.
  - destruct (round hostname rssUrl net st); [apply IH | reflexivity].
Qed.

Lemma after_rounds_add (hostname : string -> completion string) (k n : nat)
    (rssUrl : string) (net : nat -> Response) (st : loop) :
  after_rounds hostname (k + n) rssUrl net st
  = match after_rounds hostname k rssUrl net st with
    | inl st' => after_rounds hostname n rssUrl net st'
    | inr done => inr done
    end.
Proof.
  revert st. induction k as [ | k IH]; intros st; cbn.
  - reflexivity.
  - destruct (round hostname rssUrl net st); [apply IH | reflexivity].
Qed.

Lemma round_again_bound (hostname : string -> completion string)
    (rssUrl : string) (net : nat -> Response) (st st' : loop) :
  round hostname rssUrl net st = inl st' -> (attempt st' < MAX_RETRIES)%nat.
Proof.
  unfold round. destruct (attempt st <? MAX_RETRIES)%nat eqn:Ha; [ | discriminate].
  apply Nat.ltb_lt in Ha.
  destruct (try_block hostname rssUrl (net (requests st))) as [[data | ] | e].
  - discriminate.
  - intros H. injection H as <-. exact Ha.
  - destruct (MAX_RETRIES <=? S (attempt st))%nat eqn:Hm; [discriminate | ].
    apply Nat.leb_gt in Hm. intros H. injection H as <-. exact Hm.
Qed.

Lemma after_rounds_bound (hostname : string -> completion string) (k : nat)
    (rssUrl : string) (net : nat -> Response) (st st' : loop) :
  (attempt st < MAX_RETRIES)%nat ->
  after_rounds hostname k rssUrl net st = inl st' ->
  (attempt st' < MAX_RETRIES)%nat.
Proof.
  revert st. induction k as [ | k IH]; intros st Ha; cbn.
  - intros H. injection H as <-. exact Ha.
  - destruct (round hostname rssUrl net st) as [st1 | d] eqn:Hr; [ | discriminate].
    apply IH. eapply round_again_bound, Hr.
Qed.

Lemma after_rounds_stalling (hostname : string -> completion string) (n : nat)
    (rssUrl : string) (net : nat -> Response) (st : loop) :
  (attempt st < MAX_RETRIES)%nat ->
  (forall j, (requests st <= j)%nat -> stalling (net j) = true) ->
  after_rounds hostname n rssUrl net st
  = inl (mkLoop (attempt st) (requests st + n) (events st ++ repeat (Fetch rssUrl) n)).
Proof.
  revert st. induction n as [ | n IH]; intros st Ha Hs; cbn [after_rounds].
  - rewrite Nat.add_0_r, app_nil_r. destruct st; reflexivity.
  - rewrite round_stall by (try apply Hs; auto).
    rewrite IH; cbn [attempt requests events].
    + f_equal. f_equal; [lia | ].
      rewrite <- app_assoc. reflexivity.
    + exact Ha.
    + intros j Hj. apply Hs. lia.
Qed.

(** From a round on which, and after which, every reply stalls, the loop
    returns for no amount of fuel. *)
Lemma rounds_stalling (hostname : string -> completion string) (fuel : nat)
    (rssUrl : string) (net : nat -> Response) (st : loop) :
  (attempt st < MAX_RETRIES)%nat ->
  (forall j, (requests st <= j)%nat -> stalling (net j) = true) ->
  rounds hostname fuel rssUrl net st = None.
Proof.
  intros Ha Hs. rewrite rounds_after_rounds, after_rounds_stalling by assumption.
  reflexivity.
Qed.

(** C9, as amended.  Once the loop has reached a round from which on every
    reply is an HTTP success whose body is neither status "error" nor status
    "ok" with an items array, it goes round forever: [loadFeed] returns for
    no amount of fuel, and after any number [n] of further rounds the counter
    [attempt] is the one it was, [n] more requests have been made (so more
    than three, for [n] large enough) and no wait stands between them. *)
Theorem loadFeed_stalls_forever
    (hostname : string -> completion string) (rssUrl : string)
    (net : nat -> Response) (k : nat) (st : loop) :
  rssUrl <> "" ->
  after_rounds hostname k rssUrl net start = inl st ->
  (forall j, (requests st <= j)%nat -> stalling (net j) = true) ->
  (forall fuel, loadFeed hostname fuel rssUrl net = None) /\
  (forall n,
      after_rounds hostname (k + n) rssUrl net start
      = inl (mkLoop (attempt st) (requests st + n)
                    (events st ++ repeat (Fetch rssUrl) n))).
Proof.
  intros Hurl Hreach Hstall.
  assert (Ha : (attempt st < MAX_RETRIES)%nat).
  { eapply after_rounds_bound; [ | exact Hreach]. cbn. unfold MAX_RETRIES. lia. }
  assert (Hn : forall n,
             after_rounds hostname (k + n) rssUrl net start
             = inl (mkLoop (attempt st) (requests st + n)
                           (events st ++ repeat (Fetch rssUrl) n))).
  { intros n. rewrite after_rounds_add, Hreach.
    apply after_rounds_stalling; assumption. }
  split; [ | exact Hn].
  intros fuel. unfold loadFeed. rewrite (is_empty_string_false _ Hurl).
  fold start.
  destruct (rounds hostname fuel rssUrl net start) as [done | ] eqn:Hr; [ | reflexivity].
  apply rounds_more_fuel with (fuel' := (k + fuel)%nat) in Hr; [ | lia].
  rewrite rounds_after_rounds, Hn in Hr. discriminate.
Qed.

Lemma loadFeed_stalls_forever_witness :
  (forall fuel,
      loadFeed simple_host fuel "https://a.example/rss"
               (fun _ => Reply 200 (Some no_items_payload)) = None) /\
  (forall n,
      after_rounds simple_host (0 + n) "https://a.example/rss"
                   (fun _ => Reply 200 (Some no_items_payload)) start
      = inl (mkLoop (attempt start) (requests start + n)
                    (events start ++ repeat (Fetch "https://a.example/rss") n))).
Proof.
  apply (loadFeed_stalls_forever simple_host "https://a.example/rss"
                                 (fun _ => Reply 200 (Some no_items_payload)) 0 start).
  - discriminate.
  - reflexivity.
  - intros j _. reflexivity.
Defined.

(** C9 as it is worded fails: one such reply does not make the loop run
    forever.  The first reply has status "ok" and no items; the proxy cannot
    be reached after it.  The counter [attempt] is then incremented three
    times, the two backoff waits take place, and [loadFeed] returns null
    after four requests. *)
Lemma one_stalling_reply_is_not_forever :
  stalling (stalls_once 0) = true /\
  loadFeed simple_host 4 "https://a.example/rss" stalls_once
  = Some (None,
          [Fetch "https://a.example/rss"; Fetch "https://a.example/rss"; Wait 2000;
           Fetch "https://a.example/rss"; Wait 4000; Fetch "https://a.example/rss"]) /\
  ~ (forall fuel, loadFeed simple_host fuel "https://a.example/rss" stalls_once = None).
Proof.
  split; [reflexivity | ]. split; [reflexivity | ].
  intros H. specialize (H 4%nat). discriminate H.
Qed.

(** Nor does it when the next reply is complete: the payload is returned
    after two requests. *)
Lemma stalling_reply_then_payload :
  loadFeed simple_host 2 "https://a.example/rss" recovering
  = Some (Some (mkLoaded (mkFeed (Some "A") (Some "https://a.example/"))
                         [set_feedTitle "A" (article "one" (Some 1000%Z))]),
          [Fetch "https://a.example/rss"; Fetch "https://a.example/rss"]).
Proof. reflexivity. Qed.

(** ** Sorting *)

Lemma insert_Permutation {A : Type} (comparefn : A -> A -> option Z) (x : A) (l : list A) :
  Permutation (insert comparefn x l) (x :: l).
Proof.
  induction l as [ | y l IH]; cbn.
  - apply Permutation_refl.
  - destruct (SortCompare comparefn x y <=? 0)%Z.
    + apply Permutation_refl.
    + eapply perm_trans; [apply perm_skip, IH | apply perm_swap].
Qed.

Lemma Array_sort_Permutation {A : Type} (comparefn : A -> A -> option Z) (l : list A) :
  Permutation (Array_sort comparefn l) l.
Proof.
  induction l as [ | x l IH]; cbn.
  - apply perm_nil.
  - eapply perm_trans; [apply insert_Permutation | apply perm_skip, IH].
Qed.

Lemma SortCompare_parsed (a b : Article) :
  parsed a -> parsed b ->
  SortCompare newest_first a b = (timestamp b - timestamp a)%Z.
Proof.
  unfold parsed, SortCompare, newest_first, timestamp.
  destruct (pubDate a), (pubDate b); congruence.
Qed.

Lemma insert_Sorted (x : Article) (l : list Article) :
  parsed x -> Forall parsed l ->
  Sorted not_older l -> Sorted not_older (insert newest_first x l).
Proof.
  intros Hx Hl Hs. induction l as [ | y l IH]; cbn.
  - repeat constructor.
  - inversion Hl as [ | ? ? Hy Hl']; subst.
    inversion Hs as [ | ? ? Hs' Hhd]; subst.
    rewrite (SortCompare_parsed x y Hx Hy).
    destruct (timestamp y - timestamp x <=? 0)%Z eqn:E.
    + apply Z.leb_le in E. constructor; [exact Hs | ].
      constructor. unfold not_older. lia.
    + apply Z.leb_gt in E. constructor; [apply IH; assumption | ].
      destruct l as [ | z l]; cbn.
      * constructor. unfold not_older. lia.
      * inversion Hl' as [ | ? ? Hz _]; subst.
        rewrite (SortCompare_parsed x z Hx Hz).
        destruct (timestamp z - timestamp x <=? 0)%Z.
        -- constructor. unfold not_older. lia.
        -- inversion Hhd; subst. constructor. assumption.
Qed.

Lemma Array_sort_Sorted (l : list Article) :
  Forall parsed l -> Sorted not_older (Array_sort newest_first l).
Proof.
  induction 1 as [ | x l Hx Hl IH]; cbn.
  - constructor.
  - apply insert_Sorted; [exact Hx | | exact IH].
    apply (Permutation_Forall (Permutation_sym (Array_sort_Permutation newest_first l))).
    exact Hl.
Qed.

Lemma not_older_trans : Relations_1.Transitive not_older.
Proof. intros a b c. unfold not_older. lia. Qed.

Lemma StronglySorted_nth_error (l : list Article) :
  StronglySorted not_older l ->
  forall i j a b,
    (i < j)%nat -> nth_error l i = Some a -> nth_error l j = Some b -> not_older a b.
Proof.
  induction 1 as [ | x l Hs IH Hall]; intros i j a b Hij Hi Hj.
  - destruct i; discriminate.
  - destruct j as [ | j]; [lia | ].
    destruct i as [ | i]; cbn in *.
    + injection Hi as <-. rewrite Forall_forall in Hall.
      apply Hall. eapply nth_error_In, Hj.
    + apply (IH i j); [lia | assumption | assumption].
Qed.

Lemma Sorted_newer_stands_first (l : list Article) :
  Sorted not_older l -> newer_stands_first l.
Proof.
  intros Hs i j a b ta tb Hi Hj Ha Hb Hgt.
  apply (Sorted_StronglySorted not_older_trans) in Hs.
  destruct (Nat.lt_trichotomy i j) as [Hlt | [Heq | Hlt]]; [exact Hlt | | ].
  - subst j. rewrite Hi in Hj. injection Hj as <-. rewrite Ha in Hb. injection Hb as <-. lia.
  - pose proof (StronglySorted_nth_error l Hs j i b a Hlt Hj Hi) as Hnb.
    unfold not_older, timestamp in Hnb. rewrite Ha, Hb in Hnb. lia.
Qed.

(** ** The Aggregator *)

Lemma fold_left_items (l : list Loaded) (acc : list Article) :
  fold_left (fun acc data => acc ++ loaded_items data) l acc
  = acc ++ concat (map loaded_items l).
Proof.
  revert acc. induction l as [ | data l IH]; intros acc; cbn.
  - symmetry. apply app_nil_r.
  - rewrite IH, app_assoc. reflexivity.
Qed.

Lemma rendered_cards (header : list Node) (l : list Article) :
  (forall n, In n header -> match n with Card _ => False | _ => True end) ->
  flat_map (fun n => match n with Card item => [item] | _ => [] end) (header ++ map Card l) = l.
Proof.
  intros Hh. rewrite flat_map_app.
  replace (flat_map _ header) with (@nil Article).
  - cbn. induction l as [ | x l IH]; cbn; [reflexivity | f_equal; exact IH].
  - induction header as [ | n header IH]; cbn; [reflexivity | ].
    pose proof (Hh n (or_introl eq_refl)) as Hn.
    destruct n; [ | | contradiction]; apply IH; intros m Hm; apply Hh; right; exact Hm.
Qed.

Lemma renderFeed_rendered (its : list Article) (feedSources : list Feed) (p : Page) :
  exists p',
    renderFeed its feedSources p = (Normal tt, p') /\
    rendered p' = its /\
    (its = [] -> feedContainer p' = [Placeholder]) /\
    messageBox p' = messageBox p.
Proof.
  unfold renderFeed, bind, update. destruct its as [ | x its].
  - eexists. split; [reflexivity | ]. cbn. auto.
  - eexists. split; [reflexivity | ]. split; [ | split; [discriminate | reflexivity]].
    unfold rendered. cbn [feedContainer set_feedContainer].
    apply (rendered_cards [Summary _ _] (x :: its)).
    intros n [<- | []]. exact I.
Qed.

(** What [loadAllFeeds] does once every call has settled. *)
Lemma settle_spec (results : list (option Loaded)) (p : Page) :
  exists p',
    settle results p = (Normal tt, p') /\
    rendered p' = Array_sort newest_first (merged results) /\
    (not_null results = [] ->
     feedContainer p' = [Placeholder] /\
     messageBox p'
     = mkMessageBox
         "Failed to load any of the requested feeds after all retries. Open Settings to verify URLs."
         error false) /\
    (not_null results <> [] ->
     messageBox p'
     = mkMessageBox ("Successfully loaded " ++ decimal (length (not_null results))
                     ++ " feed(s) with " ++ decimal (length (merged results))
                     ++ " total articles.")%string success false).
Proof.
  unfold settle, merged. rewrite fold_left_items. cbn [app].
  remember (not_null results) as loads eqn:El.
  set (sorted := Array_sort newest_first (concat (map loaded_items loads))).
  unfold bind at 1, update.
  destruct loads as [ | data more].
  - cbn [length Nat.ltb Nat.leb].
    destruct (renderFeed_rendered [] [] (set_loadingIndicator false p))
      as [p1 [Hr [Hrend [Hph _]]]].
    unfold bind at 1. rewrite Hr. unfold showMessage, update.
    eexists. split; [reflexivity | ].
    split; [ | split; [ | congruence]].
    + subst sorted. cbn. unfold rendered in *. cbn. exact Hrend.
    + intros _. split; [ | reflexivity]. cbn. apply Hph. reflexivity.
  - replace (0 <? length (data :: more))%nat with true by reflexivity.
    destruct (renderFeed_rendered sorted (map loaded_feed (data :: more))
                                  (set_loadingIndicator false p))
      as [p1 [Hr [Hrend _]]].
    unfold bind at 1. rewrite Hr. unfold showMessage, update.
    eexists. split; [reflexivity | ].
    split; [ | split; [discriminate | ]].
    + unfold rendered in *. cbn [feedContainer set_messageBox]. exact Hrend.
    + intros _. cbn [messageBox set_messageBox]. subst sorted.
      rewrite (Permutation_length (Array_sort_Permutation newest_first _)).
      reflexivity.
Qed.

Section AggregatorProperties.

Variable hostname : string -> completion string.

Lemma loadAllFeeds_settled (fuel : nat) (net : nat -> nat -> Response) (p : Page)
    (results : list (option Loaded * list Event)) :
  current_feeds p <> [] ->
  launch hostname fuel net 0 (current_feeds p) = Some results ->
  exists p1,
    messageBox p1 = mkMessageBox (textContent (messageBox p)) (className (messageBox p)) true /\
    loadAllFeeds hostname fuel net p
    = Some (finish (settle (map fst results)) p1 (map snd results)).
Proof.
  intros Hne Hl. unfold loadAllFeeds. rewrite getFeeds_eq.
  rewrite current_feeds_eq in Hne, Hl.
  destruct (elements p (reference_of (localStorage p))) as [ | url urls] eqn:Eu;
    [congruence | ].
  rewrite Hl. eexists. split; [ | reflexivity]. reflexivity.
Qed.

Lemma loadAllFeeds_stuck (fuel : nat) (net : nat -> nat -> Response) (p : Page) :
  current_feeds p <> [] ->
  launch hostname fuel net 0 (current_feeds p) = None ->
  loadAllFeeds hostname fuel net p = None.
Proof.
  intros Hne Hl. unfold loadAllFeeds. rewrite getFeeds_eq.
  rewrite current_feeds_eq in Hne, Hl.
  destruct (elements p (reference_of (localStorage p))) as [ | url urls] eqn:Eu;
    [congruence | ].
  rewrite Hl. reflexivity.
Qed.

Lemma launch_nth_error (fuel : nat) (net : nat -> nat -> Response) (base : nat)
    (feedUrls : list string) (results : list (option Loaded * list Event)) :
  launch hostname fuel net base feedUrls = Some results ->
  length results = length feedUrls /\
  forall i url, nth_error feedUrls i = Some url ->
                nth_error results i = loadFeed hostname fuel url (net (base + i)%nat).
Proof.
  revert base results. induction feedUrls as [ | u rest IH]; intros base results; cbn.
  - intros H. injection H as <-. split; [reflexivity | ]. intros [ | i] url; discriminate.
  - destruct (loadFeed hostname fuel u (net base)) as [r | ] eqn:Hr; [ | discriminate].
    destruct (launch hostname fuel net (S base) rest) as [rs | ] eqn:Hrs; [ | discriminate].
    intros H. injection H as <-. destruct (IH _ _ Hrs) as [Hlen Hnth].
    split; [cbn; congruence | ].
    intros [ | i] url Hi; cbn in *.
    + injection Hi as <-. rewrite Nat.add_0_r. symmetry. exact Hr.
    + rewrite (Hnth i url Hi). f_equal. f_equal. lia.
Qed.

Lemma launch_settles (fuel : nat) (net : nat -> nat -> Response) (base : nat)
    (feedUrls : list string) :
  (forall i url, nth_error feedUrls i = Some url ->
                 loadFeed hostname fuel url (net (base + i)%nat) <> None) ->
  exists results, launch hostname fuel net base feedUrls = Some results.
Proof.
  revert base. induction feedUrls as [ | u rest IH]; intros base H; cbn.
  - eexists; reflexivity.
  - pose proof (H 0%nat u eq_refl) as H0. rewrite Nat.add_0_r in H0.
    destruct (loadFeed hostname fuel u (net base)) as [r | ]; [ | congruence].
    destruct (IH (S base)) as [rs Hrs].
    + intros i url Hi. replace (S base + i)%nat with (base + S i)%nat by lia.
      apply H. exact Hi.
    + rewrite Hrs. eexists; reflexivity.
Qed.

End AggregatorProperties.






(** ** What is rendered *)

Lemma try_block_stamped (hostname : string -> completion string) (rssUrl : string)
    (r : Response) (data : Loaded) :
  try_block hostname rssUrl r = Normal (Return data) ->
  Forall stamped (loaded_items data).
Proof.
  unfold try_block. destruct r as [ | s body]; [discriminate | ].
  destruct (negb (response_ok s)); [discriminate | ].
  destruct body as [payload | ]; [ | discriminate].
  destruct (if status_is "ok" payload then items payload else None) as [its | ].
  - destruct (feed payload) as [f | ]; try discriminate.
    destruct (match feed_title f with
              | Some t => if is_empty_string t then hostname rssUrl else Normal t
              | None => hostname rssUrl
              end) as [feedTitle | e]; cbn; try discriminate.
    intros H. injection H as <-. cbn.
    apply Forall_forall. intros item Hin. apply in_map_iff in Hin.
    destruct Hin as [item0 [<- _]]. unfold stamped. cbn. discriminate.
  - destruct (status_is "error" payload); discriminate.
Qed.

Lemma round_stamped (hostname : string -> completion string) (rssUrl : string)
    (net : nat -> Response) (st : loop) (data : Loaded) (run : list Event) :
  round hostname rssUrl net st = inr (Some data, run) ->
  Forall stamped (loaded_items data).
Proof.
  unfold round. destruct (attempt st <? MAX_RETRIES)%nat; [ | discriminate].
  destruct (try_block hostname rssUrl (net (requests st))) as [[d | ] | e] eqn:Ht.
  - intros H. injection H as <- _. eapply try_block_stamped, Ht.
  - discriminate.
  - destruct (MAX_RETRIES <=? S (attempt st))%nat; discriminate.
Qed.

Lemma loadFeed_stamped (hostname : string -> completion string) (fuel : nat)
    (rssUrl : string) (net : nat -> Response) (data : Loaded) (run : list Event) :
  loadFeed hostname fuel rssUrl net = Some (Some data, run) ->
  Forall stamped (loaded_items data).
Proof.
  unfold loadFeed. destruct (is_empty_string rssUrl); [discriminate | ].
  generalize (mkLoop 0 0 []). induction fuel as [ | fuel IH]; intros st; cbn.
  - discriminate.
  - destruct (round hostname rssUrl net st) as [st' | [res run']] eqn:Hr.
    + apply IH.
    + intros H. injection H as -> ->. eapply round_stamped, Hr.
Qed.

Lemma merged_Forall (P : Article -> Prop) (results : list (option Loaded)) :
  (forall data, In (Some data) results -> Forall P (loaded_items data)) ->
  Forall P (merged results).
Proof.
  unfold merged. induction results as [ | r results IH]; intros H; cbn.
  - constructor.
  - destruct r as [data | ]; cbn.
    + apply Forall_app. split.
      * apply H. left. reflexivity.
      * apply IH. intros d Hd. apply H. right. exact Hd.
    + apply IH. intros d Hd. apply H. right. exact Hd.
Qed.

(** Each payload in the results of a settled launch is what the call for
    some URL of the list returned. *)
Lemma launch_In (hostname : string -> completion string) (fuel : nat)
    (net : nat -> nat -> Response) (feedUrls : list string)
    (results : list (option Loaded * list Event)) (data : Loaded) :
  launch hostname fuel net 0 feedUrls = Some results ->
  In (Some data) (map fst results) ->
  exists i url run,
    nth_error feedUrls i = Some url /\
    loadFeed hostname fuel url (net i) = Some (Some data, run).
Proof.
  intros Hl Hin.
  destruct (launch_nth_error hostname fuel net 0 _ _ Hl) as [Hlen Hnth].
  apply in_map_iff in Hin. destruct Hin as [[res run] [Hres Hin]]. cbn in Hres. subst res.
  apply In_nth_error in Hin. destruct Hin as [i Hi].
  assert (Hi' : (i < length feedUrls)%nat)
    by (rewrite <- Hlen; apply nth_error_Some; congruence).
  destruct (nth_error feedUrls i) as [url | ] eqn:Hu;
    [ | apply nth_error_None in Hu; lia].
  exists i, url, run. split; [exact Hu | ].
  rewrite (Hnth i url Hu) in Hi. exact Hi.
Qed.

(** Where every Fetcher call settles, [loadAllFeeds] completes and what it
    renders is the merged sequence: a permutation of the concatenation of the
    article sequences of the calls that returned a payload, every article
    stamped with a feed title. *)
Theorem loadAllFeeds_renders_merged
    (hostname : string -> completion string) (fuel : nat)
    (net : nat -> nat -> Response) (p : Page) :
  current_feeds p <> [] ->
  (forall i url, nth_error (current_feeds p) i = Some url ->
                 loadFeed hostname fuel url (net i) <> None) ->
  exists results p',
    launch hostname fuel net 0 (current_feeds p) = Some results /\
    loadAllFeeds hostname fuel net p = Some (mkRun (Normal tt) p' (map snd results)) /\
    rendered p' = Array_sort newest_first (merged (map fst results)) /\
    Permutation (rendered p') (merged (map fst results)) /\
    Forall stamped (rendered p').
Proof.
  intros Hne Hsettle.
  destruct (launch_settles hostname fuel net 0 (current_feeds p) Hsettle) as [results Hl].
  destruct (launch_nth_error hostname fuel net 0 _ _ Hl) as [Hlen Hnth].
  destruct (loadAllFeeds_settled hostname fuel net p results Hne Hl) as [p1 [_ Hrun]].
  destruct (settle_spec (map fst results) p1) as [p' [Hs [Hrend _]]].
  exists results, p'. split; [exact Hl | ].
  split; [rewrite Hrun; unfold finish; rewrite Hs; reflexivity | ].
  split; [exact Hrend | ].
  assert (Hperm : Permutation (rendered p') (merged (map fst results)))
    by (rewrite Hrend; apply Array_sort_Permutation).
  split; [exact Hperm | ].
  apply (Permutation_Forall (Permutation_sym Hperm)).
  apply merged_Forall. intros data Hin.
  destruct (launch_In hostname fuel net _ _ data Hl Hin) as [i [url [run [_ Hi]]]].
  eapply loadFeed_stamped, Hi.
Qed.

(** Where the comparator never meets a date that does not parse, the sort
    does what its comment says.  When every Fetcher call settles and every
    article of the payloads returned has a timestamp that parses,
    [loadAllFeeds] renders a sequence sorted by timestamp, newest first: of
    two articles in it, the one with the strictly greater timestamp stands
    before the other. *)
Theorem rendered_newest_first_when_all_parse
    (hostname : string -> completion string) (fuel : nat)
    (net : nat -> nat -> Response) (p : Page) :
  current_feeds p <> [] ->
  (forall i url, nth_error (current_feeds p) i = Some url ->
                 loadFeed hostname fuel url (net i) <> None) ->
  (forall i url data run,
      nth_error (current_feeds p) i = Some url ->
      loadFeed hostname fuel url (net i) = Some (Some data, run) ->
      Forall parsed (loaded_items data)) ->
  exists run,
    loadAllFeeds hostname fuel net p = Some run /\
    Forall parsed (rendered (page run)) /\
    Sorted not_older (rendered (page run)) /\
    newer_stands_first (rendered (page run)).
Proof.
  intros Hne Hsettle Hparse.
  destruct (loadAllFeeds_renders_merged hostname fuel net p Hne Hsettle)
    as [results [p' [Hl [Hrun [Hrend [Hperm _]]]]]].
  eexists. split; [exact Hrun | ]. cbn [page].
  assert (Hm : Forall parsed (merged (map fst results))).
  { apply merged_Forall. intros data Hin.
    destruct (launch_In hostname fuel net _ _ data Hl Hin) as [i [url [run [Hu Hi]]]].
    exact (Hparse i url data run Hu Hi). }
  assert (Hs : Sorted not_older (rendered p'))
    by (rewrite Hrend; apply Array_sort_Sorted, Hm).
  split; [ | split; [exact Hs | apply Sorted_newer_stands_first, Hs]].
  apply (Permutation_Forall (Permutation_sym Hperm)). exact Hm.
Qed.

Lemma rendered_newest_first_when_all_parse_witness :
  exists run,
    loadAllFeeds simple_host 3 a_succeeds_b_fails two_feeds_page = Some run /\
    Forall parsed (rendered (page run)) /\
    Sorted not_older (rendered (page run)) /\
    newer_stands_first (rendered (page run)).
Proof.
  apply rendered_newest_first_when_all_parse.
  - discriminate.
  - intros i url Hi.
    change (current_feeds two_feeds_page)
      with ["https://a.example/rss"; "https://b.example/rss"] in Hi.
    destruct i as [ | [ | i]]; cbn in Hi.
    + injection Hi as <-. discriminate.
    + injection Hi as <-. discriminate.
    + destruct i; discriminate.
  - intros i url data run Hi Hload.
    change (current_feeds two_feeds_page)
      with ["https://a.example/rss"; "https://b.example/rss"] in Hi.
    destruct i as [ | [ | i]]; cbn in Hi.
    + injection Hi as <-. vm_compute in Hload. injection Hload as <- _.
      repeat constructor; discriminate.
    + injection Hi as <-. vm_compute in Hload. discriminate.
    + destruct i; discriminate.
Defined.

(** C4 at its failing input.  The comparator
    [new Date(b.pubDate) - new Date(a.pubDate)] is NaN against a date that
    does not parse, and the sort reads NaN as "equal": an article without a
    date compares as equal to every other one.  One feed answers with
    [undated-1; old; undated-2; new]; [loadAllFeeds] completes and renders the
    four articles in that order, so "new", whose timestamp parses and is
    strictly greater, stands after "old", whose timestamp parses too: the
    rendered sequence is not newest first, against the claim and against the
    comment on the sort itself. *)
Lemma undated_article_breaks_the_order :
  exists run,
    loadAllFeeds simple_host 3 undated_between two_feeds_page = Some run /\
    map title (rendered (page run)) = ["undated-1"; "old"; "undated-2"; "new"] /\
    ~ newer_stands_first (rendered (page run)).
Proof.
  eexists. split; [reflexivity | ]. split; [reflexivity | ].
  intros H.
  assert (Hlt : (3 < 1)%nat).
  { apply (H 3%nat 1%nat
             (set_feedTitle "A" (article "new" (Some 2000%Z)))
             (set_feedTitle "A" (article "old" (Some 1000%Z)))
             2000%Z 1000%Z); try reflexivity. }
  lia.
Qed.

(** The merge sort leaves that array as it is too: "old" and "new" are never
    compared with each other. *)
Lemma merge_sort_leaves_the_undated_order :
  merge_sort newest_first undated_articles = undated_articles /\
  Array_sort newest_first undated_articles = undated_articles.
Proof. split; reflexivity. Qed.

(** C1 at its failing input.  The first feed answers in full (its call
    returns the payload after one request), the second one answers every
    request with status "ok" and no items: its call never returns, the join
    over the calls never settles, and [loadAllFeeds] renders nothing, for any
    amount of fuel. *)
Theorem loadAllFeeds_never_renders_beside_a_stalling_feed :
  loadFeed simple_host 1 "https://a.example/rss" (second_feed_stalls 0)
  = Some (Some (mkLoaded (mkFeed (Some "A") (Some "https://a.example/"))
                         [set_feedTitle "A" (article "one" (Some 1000%Z))]),
          [Fetch "https://a.example/rss"]) /\
  forall fuel, loadAllFeeds simple_host fuel second_feed_stalls two_feeds_page = None.
Proof.
  split; [reflexivity | ].
  intros fuel. apply loadAllFeeds_stuck; [discriminate | ].
  change (current_feeds two_feeds_page)
    with ["https://a.example/rss"; "https://b.example/rss"].
  cbn [launch].
  assert (Hb : loadFeed simple_host fuel "https://b.example/rss" (second_feed_stalls 1) = None).
  { unfold loadFeed. cbn [is_empty_string]. apply rounds_stalling.
    - cbn. unfold MAX_RETRIES. lia.
    - intros j _. reflexivity. }
  rewrite Hb.
  destruct (loadFeed simple_host fuel "https://a.example/rss" (second_feed_stalls 0));
    reflexivity.
Qed.

(** The scenario of two feeds of which the second fails for good: the two
    articles of the first are rendered in their order, and the message
    counts one feed and two articles. *)
Lemma scenario_a_succeeds_b_fails :
  exists p' calls,
    loadAllFeeds simple_host 3 a_succeeds_b_fails two_feeds_page
    = Some (mkRun (Normal tt) p' calls) /\
    map title (rendered p') = ["first"; "second"] /\
    map feedTitle (rendered p') = [Some "A"; Some "A"] /\
    messageBox p'
    = mkMessageBox "Successfully loaded 1 feed(s) with 2 total articles." success false /\
    map fetches calls = [1; 3]%nat.
Proof.
  do 2 eexists. split; [reflexivity | ]. repeat split.
Qed.

(** ** The default feeds *)

(** With the key absent, or holding a text that does not parse, [getFeeds]
    throws nothing and hands out the [DEFAULT_FEEDS] array object. *)
Lemma getFeeds_falls_back (p : Page) :
  localStorage p = None \/ localStorage p = Some EmptyText \/ localStorage p = Some Unparsable ->
  getFeeds p = (Normal TheDefaults, p) /\ current_feeds p = DEFAULT_FEEDS p.
Proof.
  intros H. rewrite current_feeds_eq, getFeeds_eq.
  destruct H as [-> | [-> | ->]]; split; reflexivity.
Qed.

(** On the page as loaded that array holds the two URLs of the literal. *)
Lemma getFeeds_fresh_page (stored : option stored_text) (full : bool) :
  stored = None \/ stored = Some EmptyText \/ stored = Some Unparsable ->
  current_feeds (fresh_page stored full) = DEFAULT_FEEDS_literal.
Proof.
  intros H. destruct (getFeeds_falls_back (fresh_page stored full) H) as [_ ->].
  reflexivity.
Qed.

(** C7 at its failing input.  The key is absent and the storage refuses
    writes.  [addFeed] pushes the new URL onto the array [getFeeds] handed
    out, which is [DEFAULT_FEEDS] itself; the write fails and is swallowed.
    The key is still absent afterwards, and [getFeeds] now returns three
    URLs, not the two of the literal. *)
Theorem getFeeds_returns_the_extended_defaults :
  let p := snd (addFeed (set_addFeedInput "https://c.example/rss" (fresh_page None true))) in
  localStorage p = None /\
  getFeeds p = (Normal TheDefaults, p) /\
  current_feeds p
  = ["https://www.theverge.com/rss/index.xml"; "https://www.engadget.com/rss.xml";
     "https://c.example/rss"] /\
  current_feeds p <> DEFAULT_FEEDS_literal.
Proof.
  cbv zeta. split; [reflexivity | ]. split; [reflexivity | ].
  split; [reflexivity | ]. discriminate.
Qed.

(** ** The later rewrite *)

(** Its [getFeeds] lets the parse error through. *)
Lemma script_getFeeds_throws_on_unparsable (p : Page) :
  localStorage p = Some Unparsable ->
  ScriptJs.getFeeds p = (Throw (SyntaxError "Unexpected token"), p).
Proof.
  intros H. unfold ScriptJs.getFeeds, bind, getItem, read. rewrite H. reflexivity.
Qed.

(** Its Fetcher waits one and two seconds, and rethrows after the third
    request. *)
Lemma script_fetch_unreachable :
  ScriptJs.fetchFeedWithRetry "https://b.example/rss" (fun _ => Unreachable)
  = (Throw (TypeError "Failed to fetch"),
     [Fetch "https://b.example/rss"; Wait 1000; Fetch "https://b.example/rss"; Wait 2000;
      Fetch "https://b.example/rss"]).
Proof. reflexivity. Qed.

(** A payload with the status "error" is handed back after one request. *)
Lemma script_fetch_error_payload :
  ScriptJs.fetchFeedWithRetry "https://b.example/rss"
    (fun _ => Reply 200 (Some (mkPayload (Some "error") (Some "bad feed") None None)))
  = (Normal (Some (mkPayload (Some "error") (Some "bad feed") None None)),
     [Fetch "https://b.example/rss"]).
Proof. reflexivity. Qed.

(** * Further properties *)

(** ** Adding and removing feeds *)

Lemma includes_not_In (l : list string) (url : string) :
  ~ In url l -> includes l url = false.
Proof.
  intros H. unfold includes. destruct (existsb (String.eqb url) l) eqn:E; [ | reflexivity].
  apply existsb_exists in E. destruct E as [x [Hin Heq]].
  apply String.eqb_eq in Heq. subst x. contradiction.
Qed.

Lemma assign_eq (r : feeds_ref) (urls : list string) (p : Page) :
  assign r urls p
  = (Normal (match r with TheDefaults => TheDefaults | Parsed _ => Parsed urls end),
     match r with TheDefaults => set_DEFAULT_FEEDS urls p | Parsed _ => p end).
Proof. destruct r; reflexivity. Qed.

(** The path of [addFeed] that adds. *)
Lemma addFeed_new_eq (p : Page) :
  let url := trim (addFeedInput p) in
  url <> "" ->
  ~ In url (current_feeds p) ->
  addFeed p
  = (Normal tt,
     set_messageBox
       (mkMessageBox ("Feed added: " ++ substring 0 30 url ++ "...")%string success false)
       (set_addFeedInput ""
          (redrawn (after_save (current_feeds p ++ [url]) (after_push url p))))).
Proof.
  intros url Hne Hnew.
  pose proof (current_feeds_eq p) as Hcur.
  unfold addFeed, bind at 1, read. fold url.
  rewrite (is_empty_string_false _ Hne).
  unfold bind at 1. rewrite getFeeds_eq.
  unfold bind at 1, read. rewrite <- Hcur.
  rewrite (includes_not_In _ _ Hnew).
  unfold bind at 1, push. rewrite <- Hcur, assign_eq.
  fold (after_push url p).
  unfold bind at 1, read.
  assert (Hel : elements (after_push url p)
                         (match reference_of (localStorage p) with
                          | TheDefaults => TheDefaults
                          | Parsed _ => Parsed (current_feeds p ++ [url])
                          end)
                = current_feeds p ++ [url]).
  { unfold after_push. destruct (reference_of (localStorage p)); reflexivity. }
  unfold after_push at 1 2.
  change (match reference_of (localStorage p) with
          | TheDefaults => set_DEFAULT_FEEDS (current_feeds p ++ [url]) p
          | Parsed _ => p
          end) with (after_push url p).
  rewrite Hel.
  unfold bind at 1. rewrite saveFeeds_eq. fold (after_save (current_feeds p ++ [url]) (after_push url p)).
  unfold bind at 1. rewrite renderFeedsList_eq.
  reflexivity.
Qed.

Lemma current_feeds_after_save (feeds : list string) (p : Page) :
  quota_exceeded p = false -> current_feeds (after_save feeds p) = feeds.
Proof.
  intros Hq. unfold after_save. rewrite Hq. rewrite current_feeds_eq. reflexivity.
Qed.

Lemma current_feeds_redrawn (p : Page) : current_feeds (redrawn p) = current_feeds p.
Proof. rewrite !current_feeds_eq. reflexivity. Qed.

Lemma current_feeds_set_messageBox (m : MessageBox) (p : Page) :
  current_feeds (set_messageBox m p) = current_feeds p.
Proof. rewrite !current_feeds_eq. reflexivity. Qed.

Lemma current_feeds_set_addFeedInput (v : string) (p : Page) :
  current_feeds (set_addFeedInput v p) = current_feeds p.
Proof. rewrite !current_feeds_eq. reflexivity. Qed.

Lemma shown_entries_nonempty (l : list string) :
  l <> [] -> shown_entries l = map urlDisplay l.
Proof. destruct l; [congruence | reflexivity]. Qed.

(** X1.  [addFeed] with a new URL and a storage that takes the write: the
    URL is appended to the stored list, the list read back is the old one
    followed by the URL, the dialog shows one entry per URL, the input is
    cleared and the success message is shown. *)
Theorem addFeed_new_url_is_stored (p : Page) :
  let url := trim (addFeedInput p) in
  quota_exceeded p = false ->
  url <> "" ->
  ~ In url (current_feeds p) ->
  exists p',
    addFeed p = (Normal tt, p') /\
    localStorage p' = Some (FeedArray (current_feeds p ++ [url])) /\
    current_feeds p' = current_feeds p ++ [url] /\
    feedsList p' = map urlDisplay (current_feeds p ++ [url]) /\
    addFeedInput p' = "" /\
    messageBox p'
    = mkMessageBox ("Feed added: " ++ substring 0 30 url ++ "...")%string success false.
Proof.
  intros url Hq Hne Hnew.
  assert (Hq' : quota_exceeded (after_push url p) = false)
    by (unfold after_push; destruct (reference_of (localStorage p)); exact Hq).
  eexists. split; [apply (addFeed_new_eq p Hne Hnew) | ].
  fold url.
  assert (Hcur : current_feeds (after_save (current_feeds p ++ [url]) (after_push url p))
                 = current_feeds p ++ [url])
    by (apply current_feeds_after_save, Hq').
  repeat split.
  - cbn. unfold after_save. rewrite Hq'. reflexivity.
  - rewrite current_feeds_eq. cbn. unfold after_save. rewrite Hq'. reflexivity.
  - cbn. rewrite Hcur. apply shown_entries_nonempty.
    destruct (current_feeds p); discriminate.
Qed.

Lemma addFeed_new_url_is_stored_witness :
  let p := set_addFeedInput " https://c.example/rss "
             (fresh_page (Some (FeedArray ["https://a.example/rss"])) false) in
  exists p',
    addFeed p = (Normal tt, p') /\
    localStorage p' = Some (FeedArray (current_feeds p ++ ["https://c.example/rss"])) /\
    current_feeds p' = current_feeds p ++ ["https://c.example/rss"] /\
    feedsList p' = map urlDisplay (current_feeds p ++ ["https://c.example/rss"]) /\
    addFeedInput p' = "" /\
    messageBox p'
    = mkMessageBox ("Feed added: " ++ substring 0 30 "https://c.example/rss" ++ "...")%string
                   success false.
Proof.
  intros p. apply (addFeed_new_url_is_stored p).
  - reflexivity.
  - vm_compute. discriminate.
  - vm_compute. intros [H | []]. discriminate H.
Defined.

(** X2.  [addFeed] with a new URL, a stored list and a storage that refuses
    the write: the failure is swallowed, the stored list stays the one it
    was, so the URL is not kept, and the success message is shown all the
    same. *)
Theorem addFeed_reports_success_when_the_write_fails (p : Page) (stored : list string) :
  let url := trim (addFeedInput p) in
  quota_exceeded p = true ->
  localStorage p = Some (FeedArray stored) ->
  url <> "" ->
  ~ In url stored ->
  exists p',
    addFeed p = (Normal tt, p') /\
    localStorage p' = Some (FeedArray stored) /\
    current_feeds p' = stored /\
    ~ In url (current_feeds p') /\
    messageBox p'
    = mkMessageBox ("Feed added: " ++ substring 0 30 url ++ "...")%string success false.
Proof.
  intros url Hq Hst Hne Hnew.
  assert (Hcur : current_feeds p = stored)
    by (rewrite current_feeds_eq, Hst; reflexivity).
  rewrite <- Hcur in Hnew.
  eexists. split; [apply (addFeed_new_eq p Hne Hnew) | ].
  fold url. unfold after_push, after_save. rewrite Hst. cbn [reference_of].
  rewrite Hq.
  assert (Hc : current_feeds
                 (set_messageBox
                    (mkMessageBox ("Feed added: " ++ substring 0 30 url ++ "...")%string
                                  success false)
                    (set_addFeedInput "" (redrawn p))) = stored).
  { rewrite current_feeds_eq. cbn. rewrite Hst. reflexivity. }
  rewrite Hc. repeat split.
  - cbn. exact Hst.
  - rewrite <- Hcur. exact Hnew.
Qed.

Lemma addFeed_reports_success_when_the_write_fails_witness :
  let p := set_addFeedInput "https://c.example/rss"
             (fresh_page (Some (FeedArray ["https://a.example/rss"])) true) in
  exists p',
    addFeed p = (Normal tt, p') /\
    localStorage p' = Some (FeedArray ["https://a.example/rss"]) /\
    current_feeds p' = ["https://a.example/rss"] /\
    ~ In "https://c.example/rss" (current_feeds p') /\
    messageBox p'
    = mkMessageBox ("Feed added: " ++ substring 0 30 "https://c.example/rss" ++ "...")%string
                   success false.
Proof.
  intros p. apply (addFeed_reports_success_when_the_write_fails p ["https://a.example/rss"]).
  - reflexivity.
  - reflexivity.
  - vm_compute. discriminate.
  - vm_compute. intros [H | []]. discriminate H.
Defined.

Lemma trimStart_blank (s : string) : blank s = true -> trimStart s = "".
Proof.
  induction s as [ | c s IH]; cbn; [reflexivity | ].
  intros H. apply andb_prop in H. destruct H as [Hc Hs]. rewrite Hc. apply IH, Hs.
Qed.

Lemma trim_blank (s : string) : blank s = true -> trim s = "".
Proof. intros H. unfold trim. rewrite (trimStart_blank s H). reflexivity. Qed.

(** X3.  [addFeed] with an input of white space only (or empty): the warning
    "Feed URL cannot be empty." is shown and nothing else on the page
    changes; the input field keeps its text and nothing is written. *)
Theorem addFeed_blank_input_only_warns (p : Page) :
  blank (addFeedInput p) = true ->
  addFeed p
  = (Normal tt, set_messageBox (mkMessageBox "Feed URL cannot be empty." warning false) p).
Proof.
  intros H. unfold addFeed, bind, read. rewrite (trim_blank _ H). reflexivity.
Qed.

Lemma addFeed_blank_input_only_warns_witness :
  let p := set_addFeedInput "   " (fresh_page None false) in
  addFeed p
  = (Normal tt, set_messageBox (mkMessageBox "Feed URL cannot be empty." warning false) p).
Proof.
  intros p. apply (addFeed_blank_input_only_warns p). reflexivity.
Defined.

(** The path of [addFeed] that finds the URL in the list. *)
Lemma addFeed_known_eq (p : Page) :
  let url := trim (addFeedInput p) in
  url <> "" ->
  In url (current_feeds p) ->
  addFeed p
  = (Normal tt,
     set_addFeedInput ""
       (set_messageBox (mkMessageBox "Feed URL already exists." warning false) p)).
Proof.
  intros url Hne Hin.
  rewrite current_feeds_eq in Hin.
  unfold addFeed, bind at 1, read. fold url.
  rewrite (is_empty_string_false _ Hne).
  unfold bind at 1. rewrite getFeeds_eq.
  unfold bind at 1, read. rewrite (includes_In _ _ Hin).
  reflexivity.
Qed.

(** X4.  Adding the same URL twice stores it once: after [addFeed] has
    stored a new URL, typing the same text again and calling [addFeed] again
    leaves the stored list as it is and shows "Feed URL already exists.". *)
Theorem addFeed_twice_stores_once (p : Page) :
  let url := trim (addFeedInput p) in
  quota_exceeded p = false ->
  url <> "" ->
  ~ In url (current_feeds p) ->
  exists p1 p2,
    addFeed p = (Normal tt, p1) /\
    addFeed (set_addFeedInput (addFeedInput p) p1) = (Normal tt, p2) /\
    current_feeds p1 = current_feeds p ++ [url] /\
    current_feeds p2 = current_feeds p ++ [url] /\
    localStorage p2 = localStorage p1 /\
    messageBox p2 = mkMessageBox "Feed URL already exists." warning false.
Proof.
  intros url Hq Hne Hnew.
  assert (Hq' : quota_exceeded (after_push url p) = false)
    by (unfold after_push; destruct (reference_of (localStorage p)); exact Hq).
  pose proof (current_feeds_after_save (current_feeds p ++ [url]) _ Hq') as Hsaved.
  set (p1 := set_messageBox
               (mkMessageBox ("Feed added: " ++ substring 0 30 url ++ "...")%string success false)
               (set_addFeedInput ""
                  (redrawn (after_save (current_feeds p ++ [url]) (after_push url p))))).
  assert (H1 : current_feeds p1 = current_feeds p ++ [url]).
  { unfold p1. rewrite current_feeds_set_messageBox, current_feeds_set_addFeedInput,
      current_feeds_redrawn. exact Hsaved. }
  set (q := set_addFeedInput (addFeedInput p) p1).
  assert (Hq1 : current_feeds q = current_feeds p ++ [url]).
  { unfold q. rewrite current_feeds_set_addFeedInput. exact H1. }
  assert (Hin : In (trim (addFeedInput q)) (current_feeds q)).
  { rewrite Hq1. apply in_or_app. right. left. reflexivity. }
  exists p1, (set_addFeedInput ""
                (set_messageBox (mkMessageBox "Feed URL already exists." warning false) q)).
  split; [apply (addFeed_new_eq p Hne Hnew) | ].
  split; [apply (addFeed_known_eq q Hne Hin) | ].
  split; [exact H1 | ].
  split; [rewrite current_feeds_set_addFeedInput, current_feeds_set_messageBox; exact Hq1 | ].
  split; reflexivity.
Qed.

Lemma addFeed_twice_stores_once_witness :
  let p := set_addFeedInput "https://c.example/rss" (fresh_page None false) in
  exists p1 p2,
    addFeed p = (Normal tt, p1) /\
    addFeed (set_addFeedInput (addFeedInput p) p1) = (Normal tt, p2) /\
    current_feeds p1 = current_feeds p ++ ["https://c.example/rss"] /\
    current_feeds p2 = current_feeds p ++ ["https://c.example/rss"] /\
    localStorage p2 = localStorage p1 /\
    messageBox p2 = mkMessageBox "Feed URL already exists." warning false.
Proof.
  intros p. apply (addFeed_twice_stores_once p).
  - reflexivity.
  - vm_compute. discriminate.
  - vm_compute. intros [H | [H | []]]; discriminate H.
Defined.

(** [removeFeed], whatever the index. *)
Lemma removeFeed_eq (index : Z) (p : Page) :
  removeFeed index p
  = let p' := redrawn (after_save (splice1 index (current_feeds p)) (after_splice index p)) in
    match item_at (current_feeds p) index with
    | Some u =>
        (Normal tt,
         set_messageBox
           (mkMessageBox ("Feed removed: " ++ substring 0 30 u ++ "...")%string success false)
           p')
    | None =>
        (Throw (TypeError "Cannot read properties of undefined (reading 'substring')"), p')
    end.
Proof.
  pose proof (current_feeds_eq p) as Hcur.
  unfold removeFeed, bind at 1. rewrite getFeeds_eq.
  unfold bind at 1, read. rewrite <- Hcur.
  unfold bind at 1, splice. rewrite <- Hcur, assign_eq.
  fold (after_splice index p).
  change (match reference_of (localStorage p) with
          | TheDefaults => set_DEFAULT_FEEDS (splice1 index (current_feeds p)) p
          | Parsed _ => p
          end) with (after_splice index p).
  unfold bind at 1, read.
  assert (Hel : elements (after_splice index p)
                         (match reference_of (localStorage p) with
                          | TheDefaults => TheDefaults
                          | Parsed _ => Parsed (splice1 index (current_feeds p))
                          end)
                = splice1 index (current_feeds p)).
  { unfold after_splice. destruct (reference_of (localStorage p)); reflexivity. }
  rewrite Hel.
  unfold bind at 1. rewrite saveFeeds_eq.
  fold (after_save (splice1 index (current_feeds p)) (after_splice index p)).
  unfold bind at 1. rewrite renderFeedsList_eq.
  fold (redrawn (after_save (splice1 index (current_feeds p)) (after_splice index p))).
  cbv zeta. destruct (item_at (current_feeds p) index); reflexivity.
Qed.

Lemma quota_after_splice (index : Z) (p : Page) :
  quota_exceeded (after_splice index p) = quota_exceeded p.
Proof. unfold after_splice. destruct (reference_of (localStorage p)); reflexivity. Qed.

Lemma splice1_in_range (l : list string) (index : Z) :
  (0 <= index < Z.of_nat (length l))%Z ->
  splice1 index l = remove_at (Z.to_nat index) l.
Proof.
  intros H. unfold splice1, splice_start, remove_at.
  destruct (index <? 0)%Z eqn:E; [apply Z.ltb_lt in E; lia | ].
  rewrite Nat.min_l by lia. reflexivity.
Qed.

Lemma length_remove_at (i : nat) (l : list string) :
  (i < length l)%nat -> S (length (remove_at i l)) = length l.
Proof.
  intros H. unfold remove_at.
  rewrite length_app, length_firstn, length_skipn. lia.
Qed.

(** X5.  [removeFeed] with an index inside the list and a storage that takes
    the write: the list without the element at that index is stored and read
    back (one element fewer, the others in their order), and the success
    message names the removed URL. *)
Theorem removeFeed_in_range_removes_one (p : Page) (index : Z) :
  quota_exceeded p = false ->
  (0 <= index < Z.of_nat (length (current_feeds p)))%Z ->
  exists u p',
    nth_error (current_feeds p) (Z.to_nat index) = Some u /\
    removeFeed index p = (Normal tt, p') /\
    localStorage p' = Some (FeedArray (remove_at (Z.to_nat index) (current_feeds p))) /\
    current_feeds p' = remove_at (Z.to_nat index) (current_feeds p) /\
    S (length (current_feeds p')) = length (current_feeds p) /\
    messageBox p'
    = mkMessageBox ("Feed removed: " ++ substring 0 30 u ++ "...")%string success false.
Proof.
  intros Hq Hi.
  destruct (nth_error (current_feeds p) (Z.to_nat index)) as [u | ] eqn:Hu;
    [ | apply nth_error_None in Hu; lia].
  assert (Hitem : item_at (current_feeds p) index = Some u).
  { unfold item_at. destruct (index <? 0)%Z eqn:E; [apply Z.ltb_lt in E; lia | exact Hu]. }
  assert (Hq' : quota_exceeded (after_splice index p) = false)
    by (rewrite quota_after_splice; exact Hq).
  exists u. eexists. split; [reflexivity | ].
  split; [rewrite removeFeed_eq; cbv zeta; rewrite Hitem; reflexivity | ].
  rewrite current_feeds_set_messageBox, current_feeds_redrawn,
    (current_feeds_after_save _ _ Hq'), (splice1_in_range _ _ Hi).
  split; [cbn; unfold after_save; rewrite Hq'; reflexivity | ].
  split; [reflexivity | ].
  split; [apply length_remove_at; lia | reflexivity].
Qed.

Lemma removeFeed_in_range_removes_one_witness :
  let p := fresh_page (Some (FeedArray ["https://a.example/rss"; "https://b.example/rss"])) false in
  exists u p',
    nth_error (current_feeds p) (Z.to_nat 0) = Some u /\
    removeFeed 0 p = (Normal tt, p') /\
    localStorage p' = Some (FeedArray (remove_at (Z.to_nat 0) (current_feeds p))) /\
    current_feeds p' = remove_at (Z.to_nat 0) (current_feeds p) /\
    S (length (current_feeds p')) = length (current_feeds p) /\
    messageBox p'
    = mkMessageBox ("Feed removed: " ++ substring 0 30 u ++ "...")%string success false.
Proof.
  intros p. apply (removeFeed_in_range_removes_one p 0).
  - reflexivity.
  - vm_compute. split; [discriminate | reflexivity].
Defined.

Lemma remove_at_last (l : list string) (x : string) :
  remove_at (length l) (l ++ [x]) = l.
Proof.
  unfold remove_at. rewrite firstn_app, firstn_all, Nat.sub_diag. cbn [firstn].
  rewrite skipn_all2 by (rewrite length_app; cbn; lia).
  rewrite !app_nil_r. reflexivity.
Qed.

(** X6.  Adding a URL and then removing the last entry gives the stored list
    back: with a storage that takes the writes, [addFeed] of a new URL
    followed by [removeFeed] at the old length leaves the list read back
    equal to the list before. *)
Theorem addFeed_then_removeFeed_restores (p : Page) :
  let url := trim (addFeedInput p) in
  quota_exceeded p = false ->
  url <> "" ->
  ~ In url (current_feeds p) ->
  exists p1 p2,
    addFeed p = (Normal tt, p1) /\
    removeFeed (Z.of_nat (length (current_feeds p))) p1 = (Normal tt, p2) /\
    current_feeds p2 = current_feeds p /\
    localStorage p2 = Some (FeedArray (current_feeds p)).
Proof.
  intros url Hq Hne Hnew.
  assert (Hq' : quota_exceeded (after_push url p) = false)
    by (unfold after_push; destruct (reference_of (localStorage p)); exact Hq).
  pose proof (current_feeds_after_save (current_feeds p ++ [url]) _ Hq') as Hsaved.
  set (p1 := set_messageBox
               (mkMessageBox ("Feed added: " ++ substring 0 30 url ++ "...")%string success false)
               (set_addFeedInput ""
                  (redrawn (after_save (current_feeds p ++ [url]) (after_push url p))))).
  assert (H1 : current_feeds p1 = current_feeds p ++ [url]).
  { unfold p1. rewrite current_feeds_set_messageBox, current_feeds_set_addFeedInput,
      current_feeds_redrawn. exact Hsaved. }
  assert (Hq1 : quota_exceeded p1 = false).
  { unfold p1. cbn. unfold after_save. rewrite Hq'. cbn. exact Hq'. }
  set (index := Z.of_nat (length (current_feeds p))).
  assert (Hitem : item_at (current_feeds p1) index = Some url).
  { rewrite H1. unfold item_at, index.
    destruct (Z.of_nat (length (current_feeds p)) <? 0)%Z eqn:E;
      [apply Z.ltb_lt in E; lia | ].
    rewrite Nat2Z.id, nth_error_app2, Nat.sub_diag by lia. reflexivity. }
  assert (Hsp : splice1 index (current_feeds p1) = current_feeds p).
  { rewrite H1, splice1_in_range.
    - unfold index. rewrite Nat2Z.id. apply remove_at_last.
    - unfold index. rewrite length_app. cbn. lia. }
  assert (Hq2 : quota_exceeded (after_splice index p1) = false)
    by (rewrite quota_after_splice; exact Hq1).
  exists p1. eexists.
  split; [apply (addFeed_new_eq p Hne Hnew) | ].
  split; [rewrite removeFeed_eq; cbv zeta; rewrite Hitem; reflexivity | ].
  rewrite current_feeds_set_messageBox, current_feeds_redrawn,
    (current_feeds_after_save _ _ Hq2), Hsp.
  split; [reflexivity | ].
  cbn. unfold after_save. rewrite Hq2. reflexivity.
Qed.

Lemma addFeed_then_removeFeed_restores_witness :
  let p := set_addFeedInput "https://c.example/rss"
             (fresh_page (Some (FeedArray ["https://a.example/rss"])) false) in
  exists p1 p2,
    addFeed p = (Normal tt, p1) /\
    removeFeed (Z.of_nat (length (current_feeds p))) p1 = (Normal tt, p2) /\
    current_feeds p2 = current_feeds p /\
    localStorage p2 = Some (FeedArray (current_feeds p)).
Proof.
  intros p. apply (addFeed_then_removeFeed_restores p).
  - reflexivity.
  - vm_compute. discriminate.
  - vm_compute. intros [H | []]. discriminate H.
Defined.

(** X7.  [removeFeed] with a negative index: [splice] counts it from the
    end (from the start when it reaches before it), so one element is taken
    out of a non-empty list and the shorter list is stored; but
    [currentFeeds[index]] is undefined, so the call then throws instead of
    showing a message. *)
Theorem removeFeed_negative_index_removes_then_throws (p : Page) (index : Z) :
  quota_exceeded p = false ->
  (index < 0)%Z ->
  current_feeds p <> [] ->
  exists p',
    removeFeed index p
    = (Throw (TypeError "Cannot read properties of undefined (reading 'substring')"), p') /\
    current_feeds p'
    = remove_at (Z.to_nat (Z.max (Z.of_nat (length (current_feeds p)) + index) 0))
                (current_feeds p) /\
    localStorage p' = Some (FeedArray (current_feeds p')) /\
    S (length (current_feeds p')) = length (current_feeds p) /\
    messageBox p' = messageBox p.
Proof.
  intros Hq Hneg Hne.
  assert (Hitem : item_at (current_feeds p) index = None).
  { unfold item_at. apply Z.ltb_lt in Hneg. rewrite Hneg. reflexivity. }
  assert (Hq' : quota_exceeded (after_splice index p) = false)
    by (rewrite quota_after_splice; exact Hq).
  assert (Hsp : splice1 index (current_feeds p)
                = remove_at (Z.to_nat (Z.max (Z.of_nat (length (current_feeds p)) + index) 0))
                            (current_feeds p)).
  { unfold splice1, splice_start. apply Z.ltb_lt in Hneg. rewrite Hneg. reflexivity. }
  eexists. split; [rewrite removeFeed_eq; cbv zeta; rewrite Hitem; reflexivity | ].
  rewrite current_feeds_redrawn, (current_feeds_after_save _ _ Hq'), Hsp.
  split; [reflexivity | ].
  split; [cbn; unfold after_save; rewrite Hq'; reflexivity | ].
  split.
  - apply length_remove_at.
    destruct (current_feeds p); [congruence | cbn [length]; lia].
  - unfold redrawn, after_save. rewrite Hq'. unfold after_splice.
    destruct (reference_of (localStorage p)); reflexivity.
Qed.

Lemma removeFeed_negative_index_removes_then_throws_witness :
  let p := fresh_page (Some (FeedArray ["https://a.example/rss"; "https://b.example/rss"])) false in
  exists p',
    removeFeed (-1) p
    = (Throw (TypeError "Cannot read properties of undefined (reading 'substring')"), p') /\
    current_feeds p'
    = remove_at (Z.to_nat (Z.max (Z.of_nat (length (current_feeds p)) + -1) 0))
                (current_feeds p) /\
    localStorage p' = Some (FeedArray (current_feeds p')) /\
    S (length (current_feeds p')) = length (current_feeds p) /\
    messageBox p' = messageBox p.
Proof.
  intros p. apply (removeFeed_negative_index_removes_then_throws p (-1)).
  - reflexivity.
  - reflexivity.
  - vm_compute. discriminate.
Defined.

(** ** The entries of the dialog *)

Lemma length_append (s1 s2 : string) :
  String.length (s1 ++ s2) = (String.length s1 + String.length s2)%nat.
Proof. induction s1 as [ | c s1 IH]; cbn; [reflexivity | rewrite IH; reflexivity]. Qed.

Lemma length_substring_0 (n : nat) (s : string) :
  String.length (substring 0 n s) = Nat.min n (String.length s).
Proof.
  revert s. induction n as [ | n IH]; intros s.
  - destruct s; reflexivity.
  - destruct s as [ | c s]; cbn; [reflexivity | rewrite IH; reflexivity].
Qed.

Lemma length_urlDisplay (url : string) :
  String.length (urlDisplay url) = Nat.min (String.length url) 50.
Proof.
  unfold urlDisplay. destruct (50 <? String.length url)%nat eqn:E.
  - apply Nat.ltb_lt in E. rewrite length_append, length_substring_0.
    change (String.length "...") with 3%nat. lia.
  - apply Nat.ltb_ge in E. lia.
Qed.

Lemma urlDisplay_short (url : string) :
  (String.length url <= 50)%nat -> urlDisplay url = url.
Proof.
  intros H. unfold urlDisplay. apply Nat.ltb_ge in H. rewrite H. reflexivity.
Qed.

(** X8.  [renderFeedsList] redraws the dialog from the stored list and
    touches nothing else: one entry per URL in the order of the list (a
    single "No feeds added." entry for the empty list), no entry longer than
    50 characters, a URL of at most 50 characters shown in full and a longer
    one cut to its first 47 characters and "...". *)
Theorem renderFeedsList_entries (p : Page) :
  exists p',
    renderFeedsList p = (Normal tt, p') /\
    p' = set_feedsList (feedsList p') p /\
    length (feedsList p') = Nat.max 1 (length (current_feeds p)) /\
    Forall (fun entry => (String.length entry <= 50)%nat) (feedsList p') /\
    forall i url,
      nth_error (current_feeds p) i = Some url ->
      nth_error (feedsList p') i
      = Some (if (50 <? String.length url)%nat
              then (substring 0 47 url ++ "...")%string else url).
Proof.
  eexists. split; [apply renderFeedsList_eq | ].
  cbn [feedsList set_feedsList].
  split; [reflexivity | ].
  destruct (current_feeds p) as [ | u l] eqn:El.
  - split; [reflexivity | ]. split; [repeat constructor; cbn; lia | ].
    intros [ | i] url; discriminate.
  - cbn [shown_entries]. split; [rewrite length_map; cbn; lia | ]. split.
    + apply Forall_forall. intros entry Hin. apply in_map_iff in Hin.
      destruct Hin as [url [<- _]]. rewrite length_urlDisplay. lia.
    + intros i url Hi. rewrite nth_error_map, Hi. reflexivity.
Qed.

(** ** Drawing the articles *)

(** X9.  [renderFeed] replaces whatever the container held and touches
    nothing else: for no article it draws the placeholder card alone;
    otherwise one summary header, which carries the number of articles and a
    title text of at most 103 characters, followed by one card per article in
    the order given. *)
Theorem renderFeed_replaces_the_container
    (its : list Article) (feedSources : list Feed) (p : Page) :
  exists p',
    renderFeed its feedSources p = (Normal tt, p') /\
    p' = set_feedContainer (feedContainer p') p /\
    (forall previous,
        renderFeed its feedSources (set_feedContainer previous p) = (Normal tt, p')) /\
    rendered p' = its /\
    (its = [] -> feedContainer p' = [Placeholder]) /\
    (its <> [] ->
     exists titles,
       feedContainer p' = Summary (length its) titles :: map Card its /\
       (String.length titles <= 103)%nat).
Proof.
  destruct (renderFeed_rendered its feedSources p) as [p' [Hr [Hrend [Hempty _]]]].
  exists p'. split; [exact Hr | ].
  unfold renderFeed, bind, update in Hr. destruct its as [ | x its].
  - injection Hr as <-. split; [reflexivity | ]. split; [reflexivity | ].
    split; [exact Hrend | ]. split; [reflexivity | congruence].
  - injection Hr as <-. split; [reflexivity | ]. split; [reflexivity | ].
    split; [exact Hrend | ]. split; [discriminate | ].
    intros _. eexists. split; [reflexivity | ].
    rewrite length_append, length_substring_0.
    change (String.length "...") with 3%nat. lia.
Qed.

(** ** What the Fetcher returns *)

Lemma status_is_eq (s : string) (data : Payload) :
  status_is s data = true -> status data = Some s.
Proof.
  unfold status_is. destruct (status data) as [s' | ]; [ | discriminate].
  intros H. apply String.eqb_eq in H. subst. reflexivity.
Qed.

Lemma try_block_return_inv (hostname : string -> completion string) (rssUrl : string)
    (r : Response) (data : Loaded) :
  returns hostname rssUrl r data ->
  exists s payload its f t,
    r = Reply s (Some payload) /\
    response_ok s = true /\
    status payload = Some "ok" /\
    items payload = Some its /\
    feed payload = Some f /\
    feedTitle_for hostname rssUrl f = Normal t /\
    data = mkLoaded f (map (set_feedTitle t) its).
Proof.
  unfold returns, try_block. destruct r as [ | s body]; [discriminate | ].
  destruct (response_ok s) eqn:Hok; cbn [negb]; [ | discriminate].
  destruct body as [payload | ]; [ | discriminate].
  destruct (status_is "ok" payload) eqn:Hst.
  - destruct (items payload) as [its | ] eqn:Hits.
    + destruct (feed payload) as [f | ] eqn:Hf; [ | discriminate].
      fold (feedTitle_for hostname rssUrl f).
      destruct (feedTitle_for hostname rssUrl f) as [t | e] eqn:Ht; cbn; [ | discriminate].
      intros H. injection H as <-.
      exists s, payload, its, f, t. repeat split; try assumption.
      apply status_is_eq, Hst.
    + destruct (status_is "error" payload); discriminate.
  - destruct (status_is "error" payload); discriminate.
Qed.

Lemma fetches_app (a b : list Event) : fetches (a ++ b) = (fetches a + fetches b)%nat.
Proof. unfold fetches. rewrite filter_app, length_app. reflexivity. Qed.

Lemma round_counts (hostname : string -> completion string) (rssUrl : string)
    (net : nat -> Response) (st st' : loop) :
  fetches (events st) = requests st ->
  round hostname rssUrl net st = inl st' ->
  fetches (events st') = requests st' /\ requests st' = S (requests st).
Proof.
  intros Hinv. unfold round.
  destruct (attempt st <? MAX_RETRIES)%nat; [ | discriminate].
  destruct (try_block hostname rssUrl (net (requests st))) as [[data | ] | e].
  - discriminate.
  - intros H. injection H as <-. cbn [events requests].
    rewrite fetches_app, Hinv. cbn. lia.
  - destruct (MAX_RETRIES <=? S (attempt st))%nat; [discriminate | ].
    intros H. injection H as <-. cbn [events requests].
    rewrite !fetches_app, Hinv. cbn. lia.
Qed.

Lemma rounds_return_inv (hostname : string -> completion string) (fuel : nat)
    (rssUrl : string) (net : nat -> Response) (st : loop)
    (data : Loaded) (run : list Event) :
  fetches (events st) = requests st ->
  rounds hostname fuel rssUrl net st = Some (Some data, run) ->
  exists k, returns hostname rssUrl (net k) data /\ fetches run = S k.
Proof.
  revert st. induction fuel as [ | fuel IH]; intros st Hinv; cbn; [discriminate | ].
  destruct (round hostname rssUrl net st) as [st' | [res run']] eqn:Hr.
  - apply IH. eapply round_counts; eassumption.
  - intros H. injection H as -> ->.
    unfold round in Hr.
    destruct (attempt st <? MAX_RETRIES)%nat; [ | discriminate].
    destruct (try_block hostname rssUrl (net (requests st))) as [[d | ] | e] eqn:Ht.
    + injection Hr as <- <-. exists (requests st). split; [exact Ht | ].
      rewrite fetches_app, Hinv. cbn. lia.
    + discriminate.
    + destruct (MAX_RETRIES <=? S (attempt st))%nat; discriminate.
Qed.

(** X10.  Whatever [loadFeed] returns as a payload is the payload of its last
    request: that reply was an HTTP success with status "ok", a feed object
    and an items array, and the items returned are the items of the reply, in
    their order and unchanged but for [feedTitle], which is set on each to
    the feed's title or, when that is absent or empty, to the host of the
    feed URL. *)
Theorem loadFeed_returns_the_last_reply
    (hostname : string -> completion string) (fuel : nat) (rssUrl : string)
    (net : nat -> Response) (data : Loaded) (run : list Event) :
  loadFeed hostname fuel rssUrl net = Some (Some data, run) ->
  exists k s payload its t,
    fetches run = S k /\
    net k = Reply s (Some payload) /\
    response_ok s = true /\
    status payload = Some "ok" /\
    items payload = Some its /\
    feed payload = Some (loaded_feed data) /\
    feedTitle_for hostname rssUrl (loaded_feed data) = Normal t /\
    loaded_items data = map (set_feedTitle t) its /\
    map title (loaded_items data) = map title its /\
    map link (loaded_items data) = map link its /\
    map pubDate (loaded_items data) = map pubDate its.
Proof.
  unfold loadFeed. destruct (is_empty_string rssUrl); [discriminate | ].
  intros H. apply rounds_return_inv in H; [ | reflexivity].
  destruct H as [k [Hret Hk]].
  destruct (try_block_return_inv hostname rssUrl _ data Hret)
    as [s [payload [its [f [t [Hr [Hok [Hst [Hits [Hf [Ht ->]]]]]]]]]]].
  exists k, s, payload, its, t. cbn [loaded_feed loaded_items].
  repeat split; try assumption; rewrite map_map; reflexivity.
Qed.

Lemma loadFeed_returns_the_last_reply_witness :
  exists k s payload its t,
    fetches [Fetch "https://a.example/rss"; Fetch "https://a.example/rss"] = S k /\
    recovering k = Reply s (Some payload) /\
    response_ok s = true /\
    status payload = Some "ok" /\
    items payload = Some its /\
    feed payload
    = Some (loaded_feed (mkLoaded (mkFeed (Some "A") (Some "https://a.example/"))
                                  [set_feedTitle "A" (article "one" (Some 1000%Z))])) /\
    feedTitle_for simple_host "https://a.example/rss"
      (loaded_feed (mkLoaded (mkFeed (Some "A") (Some "https://a.example/"))
                             [set_feedTitle "A" (article "one" (Some 1000%Z))]))
    = Normal t /\
    loaded_items (mkLoaded (mkFeed (Some "A") (Some "https://a.example/"))
                           [set_feedTitle "A" (article "one" (Some 1000%Z))])
    = map (set_feedTitle t) its /\
    map title (loaded_items (mkLoaded (mkFeed (Some "A") (Some "https://a.example/"))
                                      [set_feedTitle "A" (article "one" (Some 1000%Z))]))
    = map title its /\
    map link (loaded_items (mkLoaded (mkFeed (Some "A") (Some "https://a.example/"))
                                     [set_feedTitle "A" (article "one" (Some 1000%Z))]))
    = map link its /\
    map pubDate (loaded_items (mkLoaded (mkFeed (Some "A") (Some "https://a.example/"))
                                        [set_feedTitle "A" (article "one" (Some 1000%Z))]))
    = map pubDate its.
Proof.
  apply (loadFeed_returns_the_last_reply simple_host 2 "https://a.example/rss" recovering).
  reflexivity.
Defined.

(** X11.  The host lookup sits inside the [try] block.  For a feed URL that
    [new URL] rejects, replies that are complete but for the feed title
    (absent or empty) count as failed attempts: [loadFeed] makes its three
    requests with the two backoff waits and returns null, although every
    reply was an HTTP success with status "ok" and its items. *)
Theorem loadFeed_untitled_feed_needs_a_valid_url
    (hostname : string -> completion string) (fuel : nat) (rssUrl : string)
    (net : nat -> Response) (e : exn) :
  rssUrl <> "" ->
  (MAX_RETRIES <= fuel)%nat ->
  hostname rssUrl = Throw e ->
  (forall k, exists s payload its f,
      net k = Reply s (Some payload) /\
      response_ok s = true /\
      status payload = Some "ok" /\
      items payload = Some its /\
      feed payload = Some f /\
      or_else (feed_title f) "" = "") ->
  loadFeed hostname fuel rssUrl net
  = Some (None, [Fetch rssUrl; Wait 2000; Fetch rssUrl; Wait 4000; Fetch rssUrl]).
Proof.
  intros Hurl Hfuel Hhost Hnet.
  assert (Hth : forall k, throws hostname rssUrl (net k)).
  { intros k. destruct (Hnet k) as [s [payload [its [f [-> [Hok [Hst [Hits [Hf Ht]]]]]]]]].
    exists e. unfold try_block, status_is. rewrite Hok, Hst, Hits, Hf. cbn.
    unfold or_else in Ht. destruct (feed_title f) as [t | ].
    - destruct (is_empty_string t) eqn:Et.
      + rewrite Hhost. reflexivity.
      + subst t. discriminate.
    - rewrite Hhost. reflexivity. }
  destruct (loadFeed_schedule hostname rssUrl net fuel 2 Hurl Hfuel) as [_ Hnull].
  - unfold MAX_RETRIES. lia.
  - intros k _. apply Hth.
  - apply Hnull; [reflexivity | apply Hth].
Qed.

Lemma loadFeed_untitled_feed_needs_a_valid_url_witness :
  loadFeed (fun _ => Throw (TypeError "Invalid URL")) 3 "not a url"
           (fun _ => Reply 200 (Some (mkPayload (Some "ok") None (Some (mkFeed (Some "") None))
                                                (Some [article "one" (Some 1000%Z)]))))
  = Some (None, [Fetch "not a url"; Wait 2000; Fetch "not a url"; Wait 4000; Fetch "not a url"]).
Proof.
  apply (loadFeed_untitled_feed_needs_a_valid_url
           (fun _ => Throw (TypeError "Invalid URL")) 3 "not a url" _ (TypeError "Invalid URL")).
  - discriminate.
  - apply le_n.
  - reflexivity.
  - intros k. do 4 eexists. repeat split; reflexivity.
Defined.

(** ** What a call of the Fetcher does to the outside *)

Lemma waits_app (a b : list Event) : waits (a ++ b) = waits a ++ waits b.
Proof. unfold waits. apply flat_map_app. Qed.

Lemma requested_app (a b : list Event) : requested (a ++ b) = requested a ++ requested b.
Proof. unfold requested. apply flat_map_app. Qed.

Lemma round_keeps_inv (hostname : string -> completion string) (rssUrl : string)
    (net : nat -> Response) (st st' : loop) :
  loop_inv rssUrl st ->
  round hostname rssUrl net st = inl st' ->
  loop_inv rssUrl st'.
Proof.
  intros [Hw [Hr [Ha [Hf _]]]] Hround.
  pose proof (round_again_bound hostname rssUrl net st st' Hround) as Hb.
  revert Hround. unfold round.
  destruct (attempt st <? MAX_RETRIES)%nat; [ | discriminate].
  destruct (try_block hostname rssUrl (net (requests st))) as [[data | ] | e].
  - discriminate.
  - intros H. injection H as <-. unfold loop_inv. cbn [events attempt requests] in *.
    rewrite waits_app, requested_app, fetches_app, Hw, Hf. cbn.
    rewrite app_nil_r. repeat split; [ | lia | lia | exact Hb].
    apply Forall_app. split; [exact Hr | repeat constructor].
  - destruct (MAX_RETRIES <=? S (attempt st))%nat; [discriminate | ].
    intros H. injection H as <-. unfold loop_inv. cbn [events attempt requests] in *.
    rewrite !waits_app, !requested_app, !fetches_app, Hw, Hf.
    rewrite seq_S, map_app. cbn [waits requested fetches flat_map app map filter is_fetch length].
    rewrite !app_nil_r. repeat split; [ | lia | lia | exact Hb].
    apply Forall_app. split; [exact Hr | repeat constructor].
Qed.

Lemma rounds_keep_inv (hostname : string -> completion string) (fuel : nat)
    (rssUrl : string) (net : nat -> Response) (st : loop)
    (result : option Loaded) (run : list Event) :
  loop_inv rssUrl st ->
  rounds hostname fuel rssUrl net st = Some (result, run) ->
  exists n,
    (n <= 2)%nat /\
    waits run = map (fun i => (2 ^ Z.of_nat i * 1000)%Z) (seq 1 n) /\
    Forall (eq rssUrl) (requested run) /\
    (n < fetches run)%nat.
Proof.
  revert st. induction fuel as [ | fuel IH]; intros st Hinv; cbn; [discriminate | ].
  destruct (round hostname rssUrl net st) as [st' | [res run']] eqn:Hr.
  - apply IH. eapply round_keeps_inv; eassumption.
  - intros H. injection H as -> ->. destruct Hinv as [Hw [Hq [Ha [Hf Hlt]]]].
    unfold round in Hr.
    pose proof Hlt as Hlt'. apply Nat.ltb_lt in Hlt'. rewrite Hlt' in Hr.
    unfold MAX_RETRIES in Hlt.
    assert (Hdone : run = events st ++ [Fetch rssUrl]).
    { destruct (try_block hostname rssUrl (net (requests st))) as [[d | ] | e].
      - injection Hr as _ <-. reflexivity.
      - discriminate.
      - destruct (MAX_RETRIES <=? S (attempt st))%nat; [ | discriminate].
        injection Hr as _ <-. reflexivity. }
    subst run. exists (attempt st).
    rewrite waits_app, requested_app, fetches_app, Hw, Hf. cbn.
    rewrite app_nil_r. repeat split; [lia | | lia].
    apply Forall_app. split; [exact Hq | repeat constructor].
Qed.

Lemma loop_inv_start (rssUrl : string) : loop_inv rssUrl start.
Proof.
  unfold loop_inv, start. cbn. unfold MAX_RETRIES.
  repeat split; try constructor; lia.
Qed.

(** X12.  Whatever the replies, a call of [loadFeed] that returns has waited
    at most twice, 2000 ms and then 4000 ms (6 seconds at most in all), each
    wait between two requests, and every request it made was for the feed URL
    it was called with. *)
Theorem loadFeed_waits_at_most_twice
    (hostname : string -> completion string) (fuel : nat) (rssUrl : string)
    (net : nat -> Response) (result : option Loaded) (run : list Event) :
  loadFeed hostname fuel rssUrl net = Some (result, run) ->
  (waits run = [] \/ waits run = [2000%Z] \/ waits run = [2000%Z; 4000%Z]) /\
  (total (waits run) <= 6000)%Z /\
  (length (waits run) <= fetches run)%nat /\
  Forall (eq rssUrl) (requested run).
Proof.
  unfold loadFeed. destruct (is_empty_string rssUrl).
  - intros H. injection H as _ <-. cbn. repeat split; try constructor; auto; lia.
  - intros H. apply rounds_keep_inv in H; [ | apply loop_inv_start].
    destruct H as [n [Hn [Hw [Hr Hf]]]].
    assert (Hlen : length (waits run) = n)
      by (rewrite Hw, length_map, length_seq; reflexivity).
    rewrite Hlen. rewrite Hw.
    destruct n as [ | [ | [ | n]]]; [ | | | lia]; cbn;
      (repeat split; [auto | lia | lia | exact Hr]).
Qed.

Lemma loadFeed_waits_at_most_twice_witness :
  (waits [Fetch "https://a.example/rss"; Fetch "https://a.example/rss"; Wait 2000;
          Fetch "https://a.example/rss"; Wait 4000; Fetch "https://a.example/rss"] = [] \/
   waits [Fetch "https://a.example/rss"; Fetch "https://a.example/rss"; Wait 2000;
          Fetch "https://a.example/rss"; Wait 4000; Fetch "https://a.example/rss"] = [2000%Z] \/
   waits [Fetch "https://a.example/rss"; Fetch "https://a.example/rss"; Wait 2000;
          Fetch "https://a.example/rss"; Wait 4000; Fetch "https://a.example/rss"]
   = [2000%Z; 4000%Z]) /\
  (total (waits [Fetch "https://a.example/rss"; Fetch "https://a.example/rss"; Wait 2000;
                 Fetch "https://a.example/rss"; Wait 4000; Fetch "https://a.example/rss"])
   <= 6000)%Z /\
  (length (waits [Fetch "https://a.example/rss"; Fetch "https://a.example/rss"; Wait 2000;
                  Fetch "https://a.example/rss"; Wait 4000; Fetch "https://a.example/rss"])
   <= fetches [Fetch "https://a.example/rss"; Fetch "https://a.example/rss"; Wait 2000;
               Fetch "https://a.example/rss"; Wait 4000; Fetch "https://a.example/rss"])%nat /\
  Forall (eq "https://a.example/rss")
         (requested [Fetch "https://a.example/rss"; Fetch "https://a.example/rss"; Wait 2000;
                     Fetch "https://a.example/rss"; Wait 4000; Fetch "https://a.example/rss"]).
Proof.
  apply (loadFeed_waits_at_most_twice simple_host 4 "https://a.example/rss" stalls_once None).
  reflexivity.
Defined.

(** ** The Aggregator, further *)

Lemma renderFeed_eq (its : list Article) (feedSources : list Feed) (p : Page) :
  renderFeed its feedSources p = (Normal tt, set_feedContainer (drawn its feedSources) p).
Proof. unfold renderFeed, bind, update, drawn. destruct its; reflexivity. Qed.

Lemma settle_eq (results : list (option Loaded)) (p : Page) :
  settle results p
  = (Normal tt,
     set_messageBox (closing_message (not_null results))
       (set_feedContainer
          (match not_null results with
           | [] => [Placeholder]
           | loads => drawn (Array_sort newest_first (merged results)) (map loaded_feed loads)
           end)
          (set_loadingIndicator false p))).
Proof.
  unfold settle, merged. rewrite fold_left_items. cbn [app].
  unfold bind at 1, update.
  destruct (not_null results) as [ | data more] eqn:El.
  - cbn [length Nat.ltb Nat.leb]. unfold bind at 1. rewrite renderFeed_eq. reflexivity.
  - replace (0 <? length (data :: more))%nat with true by reflexivity.
    unfold bind at 1. rewrite renderFeed_eq. unfold showMessage, update, closing_message.
    rewrite (Permutation_length (Array_sort_Permutation newest_first _)).
    reflexivity.
Qed.

Lemma rounds_requests_own_url (hostname : string -> completion string) (fuel : nat)
    (rssUrl : string) (net : nat -> Response) (result : option Loaded) (run : list Event) :
  loadFeed hostname fuel rssUrl net = Some (result, run) ->
  Forall (eq rssUrl) (requested run) /\ (length (waits run) <= 2)%nat.
Proof.
  unfold loadFeed. destruct (is_empty_string rssUrl).
  - intros H. injection H as _ <-. cbn. split; [constructor | lia].
  - intros H. apply rounds_keep_inv in H; [ | apply loop_inv_start].
    destruct H as [n [Hn [Hw [Hr Hf]]]]. split; [exact Hr | ].
    rewrite Hw, length_map, length_seq. exact Hn.
Qed.

(** Every run of [loadAllFeeds] that completes is one of two. *)
Lemma loadAllFeeds_cases (hostname : string -> completion string) (fuel : nat)
    (net : nat -> nat -> Response) (p : Page) (run : Run) :
  loadAllFeeds hostname fuel net p = Some run ->
  (current_feeds p = [] /\
   run = mkRun (Normal tt)
               (set_feedContainer []
                  (set_messageBox
                     (mkMessageBox "No feeds configured. Open Settings to add a URL."
                                   warning false) p))
               []) \/
  (current_feeds p <> [] /\
   exists results,
     launch hostname fuel net 0 (current_feeds p) = Some results /\
     run = mkRun (Normal tt) (settled (map fst results) p) (map snd results)).
Proof.
  unfold loadAllFeeds. rewrite getFeeds_eq, <- current_feeds_eq.
  destruct (current_feeds p) as [ | url urls] eqn:Eu.
  - intros H. injection H as <-. left. split; reflexivity.
  - destruct (launch hostname fuel net 0 (url :: urls)) as [results | ] eqn:El;
      [ | discriminate].
    intros H. injection H as <-. right. split; [discriminate | ].
    exists results. split; [reflexivity | ].
    unfold finish. rewrite settle_eq. reflexivity.
Qed.

(** X13.  A run of [loadAllFeeds] that completes throws nothing and leaves
    the storage, the default array, the input field and the dialog's list as
    they were; it ends with a message on display.  With feeds configured the
    loading indicator is hidden again and the settings dialog closed; with
    none configured it returns before touching either. *)
Theorem loadAllFeeds_touches_only_the_display
    (hostname : string -> completion string) (fuel : nat)
    (net : nat -> nat -> Response) (p : Page) (run : Run) :
  loadAllFeeds hostname fuel net p = Some run ->
  completed run = Normal tt /\
  localStorage (page run) = localStorage p /\
  DEFAULT_FEEDS (page run) = DEFAULT_FEEDS p /\
  addFeedInput (page run) = addFeedInput p /\
  feedsList (page run) = feedsList p /\
  hidden (messageBox (page run)) = false /\
  (current_feeds p <> [] ->
   loadingIndicator (page run) = false /\ settingsDialog (page run) = false) /\
  (current_feeds p = [] ->
   loadingIndicator (page run) = loadingIndicator p /\
   settingsDialog (page run) = settingsDialog p).
Proof.
  intros H. apply loadAllFeeds_cases in H.
  destruct H as [[He ->] | [Hne [results [_ ->]]]]; cbn [completed page].
  - repeat split; try reflexivity; congruence.
  - assert (Hh : hidden (messageBox (settled (map fst results) p)) = false).
    { unfold settled, closing_message. cbn.
      destruct (not_null (map fst results)); reflexivity. }
    repeat split; try reflexivity; try exact Hh; congruence.
Qed.

Lemma loadAllFeeds_touches_only_the_display_witness :
  let run := mkRun (Normal tt)
                   (settled [None; None] two_feeds_page)
                   [[Fetch "https://a.example/rss"; Wait 2000; Fetch "https://a.example/rss";
                     Wait 4000; Fetch "https://a.example/rss"];
                    [Fetch "https://b.example/rss"; Wait 2000; Fetch "https://b.example/rss";
                     Wait 4000; Fetch "https://b.example/rss"]] in
  completed run = Normal tt /\
  localStorage (page run) = localStorage two_feeds_page /\
  DEFAULT_FEEDS (page run) = DEFAULT_FEEDS two_feeds_page /\
  addFeedInput (page run) = addFeedInput two_feeds_page /\
  feedsList (page run) = feedsList two_feeds_page /\
  hidden (messageBox (page run)) = false /\
  (current_feeds two_feeds_page <> [] ->
   loadingIndicator (page run) = false /\ settingsDialog (page run) = false) /\
  (current_feeds two_feeds_page = [] ->
   loadingIndicator (page run) = loadingIndicator two_feeds_page /\
   settingsDialog (page run) = settingsDialog two_feeds_page).
Proof.
  intros run.
  apply (loadAllFeeds_touches_only_the_display simple_host 3 (fun _ _ => Unreachable)
                                               two_feeds_page run).
  reflexivity.
Defined.

(** X14.  With feeds configured, a run of [loadAllFeeds] that completes has
    issued exactly one Fetcher call per configured URL, in the order of the
    list, and each call requested nothing but its own URL and waited at most
    twice. *)
Theorem loadAllFeeds_one_call_per_feed
    (hostname : string -> completion string) (fuel : nat)
    (net : nat -> nat -> Response) (p : Page) (run : Run) :
  current_feeds p <> [] ->
  loadAllFeeds hostname fuel net p = Some run ->
  length (calls run) = length (current_feeds p) /\
  forall i url call,
    nth_error (current_feeds p) i = Some url ->
    nth_error (calls run) i = Some call ->
    Forall (eq url) (requested call) /\ (length (waits call) <= 2)%nat.
Proof.
  intros Hne H. apply loadAllFeeds_cases in H.
  destruct H as [[He _] | [_ [results [Hl ->]]]]; [congruence | ].
  destruct (launch_nth_error hostname fuel net 0 _ _ Hl) as [Hlen Hnth].
  cbn [calls]. split; [rewrite length_map; exact Hlen | ].
  intros i url call Hu Hc. rewrite nth_error_map in Hc.
  rewrite (Hnth i url Hu) in Hc. cbn in Hc.
  destruct (loadFeed hostname fuel url (net i)) as [[res evs] | ] eqn:Hload; [ | discriminate].
  cbn in Hc. injection Hc as <-.
  eapply rounds_requests_own_url, Hload.
Qed.

Lemma loadAllFeeds_one_call_per_feed_witness :
  let run := mkRun (Normal tt)
                   (settled [None; None] two_feeds_page)
                   [[Fetch "https://a.example/rss"; Wait 2000; Fetch "https://a.example/rss";
                     Wait 4000; Fetch "https://a.example/rss"];
                    [Fetch "https://b.example/rss"; Wait 2000; Fetch "https://b.example/rss";
                     Wait 4000; Fetch "https://b.example/rss"]] in
  length (calls run) = length (current_feeds two_feeds_page) /\
  forall i url call,
    nth_error (current_feeds two_feeds_page) i = Some url ->
    nth_error (calls run) i = Some call ->
    Forall (eq url) (requested call) /\ (length (waits call) <= 2)%nat.
Proof.
  intros run.
  apply (loadAllFeeds_one_call_per_feed simple_host 3 (fun _ _ => Unreachable)
                                        two_feeds_page run).
  - discriminate.
  - reflexivity.
Defined.








Lemma In_merged (results : list (option Loaded)) (a : Article) :
  In a (merged results) <-> exists data, In (Some data) results /\ In a (loaded_items data).
Proof.
  unfold merged. induction results as [ | r results IH]; cbn.
  - split; [intros [] | intros [data [[] _]]].
  - destruct r as [d | ]; cbn.
    + rewrite in_app_iff, IH. split.
      * intros [H | [data [Hd Ha]]]; [exists d | exists data]; auto.
      * intros [data [[Hd | Hd] Ha]].
        -- injection Hd as <-. left. exact Ha.
        -- right. exists data. auto.
    + rewrite IH. split.
      * intros [data [Hd Ha]]. exists data. auto.
      * intros [data [[Hd | Hd] Ha]]; [discriminate | exists data; auto].
Qed.

(** X17.  Where every Fetcher call settles, [loadAllFeeds] completes and the
    cards it draws are the articles the calls returned, no more and no fewer:
    an article is rendered exactly when it is among the items of a payload
    some call returned, the number of cards is the number of those items, and
    every card carries a feed title. *)
Theorem loadAllFeeds_renders_what_the_calls_returned
    (hostname : string -> completion string) (fuel : nat)
    (net : nat -> nat -> Response) (p : Page) :
  current_feeds p <> [] ->
  (forall i url, nth_error (current_feeds p) i = Some url ->
                 loadFeed hostname fuel url (net i) <> None) ->
  exists run results,
    loadAllFeeds hostname fuel net p = Some run /\
    completed run = Normal tt /\
    launch hostname fuel net 0 (current_feeds p) = Some results /\
    length (rendered (page run)) = length (merged (map fst results)) /\
    Forall stamped (rendered (page run)) /\
    forall a,
      In a (rendered (page run)) <->
      exists i url data call,
        nth_error (current_feeds p) i = Some url /\
        loadFeed hostname fuel url (net i) = Some (Some data, call) /\
        In a (loaded_items data).
Proof.
  intros Hne Hsettle.
  destruct (loadAllFeeds_renders_merged hostname fuel net p Hne Hsettle)
    as [results [p' [Hl [Hrun [_ [Hperm Hst]]]]]].
  destruct (launch_nth_error hostname fuel net 0 _ _ Hl) as [Hlen Hnth].
  eexists. exists results. split; [exact Hrun | ]. cbn [completed page].
  split; [reflexivity | ]. split; [exact Hl | ].
  split; [apply Permutation_length, Hperm | ]. split; [exact Hst | ].
  intros a. split.
  - intros Ha. apply (Permutation_in _ Hperm) in Ha. apply In_merged in Ha.
    destruct Ha as [data [Hd Ha]].
    destruct (launch_In hostname fuel net _ _ data Hl Hd) as [i [url [call [Hu Hload]]]].
    exists i, url, data, call. auto.
  - intros [i [url [data [call [Hu [Hload Ha]]]]]].
    apply (Permutation_in _ (Permutation_sym Hperm)). apply In_merged.
    exists data. split; [ | exact Ha].
    apply in_map_iff. exists (Some data, call). split; [reflexivity | ].
    apply (nth_error_In _ i). rewrite (Hnth i url Hu). exact Hload.
Qed.

Lemma loadAllFeeds_renders_what_the_calls_returned_witness :
  exists run results,
    loadAllFeeds simple_host 3 a_succeeds_b_fails two_feeds_page = Some run /\
    completed run = Normal tt /\
    launch simple_host 3 a_succeeds_b_fails 0 (current_feeds two_feeds_page) = Some results /\
    length (rendered (page run)) = length (merged (map fst results)) /\
    Forall stamped (rendered (page run)) /\
    forall a,
      In a (rendered (page run)) <->
      exists i url data call,
        nth_error (current_feeds two_feeds_page) i = Some url /\
        loadFeed simple_host 3 url (a_succeeds_b_fails i) = Some (Some data, call) /\
        In a (loaded_items data).
Proof.
  apply (loadAllFeeds_renders_what_the_calls_returned simple_host 3 a_succeeds_b_fails
                                                      two_feeds_page).
  - discriminate.
  - intros i url Hi.
    change (current_feeds two_feeds_page)
      with ["https://a.example/rss"; "https://b.example/rss"] in Hi.
    destruct i as [ | [ | i]]; cbn in Hi.
    + injection Hi as <-. discriminate.
    + injection Hi as <-. discriminate.
    + destruct i; discriminate.
Defined.

(** ** The dialog keeps the lists tidy *)

Lemma tidy_snoc (l : list string) (url : string) :
  tidy l -> url <> "" -> ~ In url l -> tidy (l ++ [url]).
Proof.
  intros [Hnd Hne] Hurl Hnew. split.
  - apply NoDup_app; [exact Hnd | repeat constructor; intros [] | ].
    intros a Ha [<- | []]. contradiction.
  - intros H. apply in_app_or in H. destruct H as [H | [H | []]]; [contradiction | ].
    subst url. congruence.
Qed.

Lemma In_remove_at (i : nat) (l : list string) (x : string) :
  In x (remove_at i l) -> In x l.
Proof.
  unfold remove_at. intros H. apply in_app_or in H.
  rewrite <- (firstn_skipn i l). apply in_or_app.
  destruct H as [H | H]; [left; exact H | right].
  rewrite <- (firstn_skipn 1 (skipn i l)). apply in_or_app. right.
  rewrite skipn_skipn. exact H.
Qed.

Lemma NoDup_remove_at (i : nat) (l : list string) : NoDup l -> NoDup (remove_at i l).
Proof.
  intros H. unfold remove_at.
  rewrite <- (firstn_skipn i l) in H.
  destruct (skipn i l) as [ | x rest] eqn:Es.
  - replace (skipn (S i) l) with (@nil string).
    + rewrite app_nil_r in *. exact H.
    + symmetry. change (S i) with (1 + i)%nat. rewrite <- skipn_skipn, Es. reflexivity.
  - replace (skipn (S i) l) with rest.
    + eapply NoDup_remove_1, H.
    + change (S i) with (1 + i)%nat. rewrite <- skipn_skipn, Es. reflexivity.
Qed.

Lemma tidy_splice1 (index : Z) (l : list string) : tidy l -> tidy (splice1 index l).
Proof.
  intros [Hnd Hne]. unfold splice1.
  fold (remove_at (splice_start (length l) index) l). split.
  - apply NoDup_remove_at, Hnd.
  - intros H. apply In_remove_at in H. contradiction.
Qed.

Lemma tidy_current_feeds (p : Page) : tidy_page p -> tidy (current_feeds p).
Proof.
  intros [Hd Hs]. rewrite current_feeds_eq.
  destruct (localStorage p) as [[ | | l] | ] eqn:E; cbn; auto.
Qed.

Lemma tidy_page_frame (p q : Page) :
  localStorage q = localStorage p -> DEFAULT_FEEDS q = DEFAULT_FEEDS p ->
  tidy_page p -> tidy_page q.
Proof. intros Hs Hd [H1 H2]. split; [rewrite Hd; exact H1 | rewrite Hs; exact H2]. Qed.

(** Writing a tidy list through the array in hand keeps the page tidy. *)
Lemma tidy_page_written (feeds : list string) (p : Page) :
  tidy_page p -> tidy feeds ->
  tidy_page
    (after_save feeds
       (match reference_of (localStorage p) with
        | TheDefaults => set_DEFAULT_FEEDS feeds p
        | Parsed _ => p
        end)).
Proof.
  intros [Hd Hs] Hf. unfold after_save.
  destruct (reference_of (localStorage p)) eqn:Er; cbn [quota_exceeded set_DEFAULT_FEEDS];
    destruct (quota_exceeded p); split; cbn; auto.
  - intros l H. injection H as <-. exact Hf.
  - intros l H. injection H as <-. exact Hf.
Qed.

Lemma handle_keeps_tidy (e : UserEvent) (p : Page) : tidy_page p -> tidy_page (handle e p).
Proof.
  intros Hp. destruct e as [ | | text | | index]; cbn [handle].
  - rewrite renderFeedsList_eq. eapply tidy_page_frame; [ | | exact Hp]; reflexivity.
  - eapply tidy_page_frame; [ | | exact Hp]; reflexivity.
  - eapply tidy_page_frame; [ | | exact Hp]; reflexivity.
  - destruct (string_dec (trim (addFeedInput p)) "") as [He | Hne].
    + unfold addFeed, bind, read. rewrite He. cbn.
      eapply tidy_page_frame; [ | | exact Hp]; reflexivity.
    + destruct (in_dec string_dec (trim (addFeedInput p)) (current_feeds p)) as [Hin | Hnew].
      * rewrite (addFeed_known_eq p Hne Hin).
        eapply tidy_page_frame; [ | | exact Hp]; reflexivity.
      * rewrite (addFeed_new_eq p Hne Hnew). cbn [snd].
        eapply tidy_page_frame;
          [ | | apply (tidy_page_written (current_feeds p ++ [trim (addFeedInput p)]) p Hp)].
        -- reflexivity.
        -- reflexivity.
        -- apply tidy_snoc; [apply tidy_current_feeds, Hp | exact Hne | exact Hnew].
  - rewrite removeFeed_eq. cbv zeta.
    assert (Ht : tidy_page
                   (redrawn (after_save (splice1 (Z.of_nat index) (current_feeds p))
                                        (after_splice (Z.of_nat index) p)))).
    { eapply tidy_page_frame;
        [ | | apply (tidy_page_written (splice1 (Z.of_nat index) (current_feeds p)) p Hp)].
      - reflexivity.
      - reflexivity.
      - apply tidy_splice1, tidy_current_feeds, Hp. }
    destruct (item_at (current_feeds p) (Z.of_nat index)); cbn [snd]; [ | exact Ht].
    eapply tidy_page_frame; [ | | exact Ht]; reflexivity.
Qed.

(** X18.  The settings dialog keeps the feed lists tidy: from a page whose
    default array and stored list hold no URL twice and no empty URL,
    whatever the user does in the dialog (open it, close it, type, add,
    remove at any index, in any order and with writes failing or not), the
    default array, the stored list and the list [getFeeds] returns hold no
    URL twice and no empty URL. *)
Theorem session_keeps_the_lists_tidy (events : list UserEvent) (p : Page) :
  tidy_page p ->
  tidy_page (session events p) /\
  NoDup (current_feeds (session events p)) /\
  ~ In "" (current_feeds (session events p)).
Proof.
  intros Hp.
  assert (H : tidy_page (session events p)).
  { unfold session. revert p Hp. induction events as [ | e events IH]; intros p Hp; cbn.
    - exact Hp.
    - apply IH, handle_keeps_tidy, Hp. }
  split; [exact H | apply tidy_current_feeds, H].
Qed.

Lemma session_keeps_the_lists_tidy_witness :
  let events := [OpenSettings; TypeUrl "https://c.example/rss"; ClickAdd;
                 TypeUrl " https://c.example/rss "; ClickAdd; ClickRemove 0; ClickRemove 7;
                 CloseSettings] in
  let p := fresh_page None false in
  tidy_page (session events p) /\
  NoDup (current_feeds (session events p)) /\
  ~ In "" (current_feeds (session events p)).
Proof.
  intros events p. apply (session_keeps_the_lists_tidy events p).
  split.
  - split.
    + repeat constructor; cbn; intuition discriminate.
    + cbn. intuition discriminate.
  - intros l H. discriminate H.
Defined.

(** ** The rewrite: stripping markup *)

Lemma has_gt_strip (inside : bool) (s : string) :
  ScriptJs.has_gt (ScriptJs.strip inside s) = true -> ScriptJs.has_gt s = true.
Proof.
  revert inside. induction s as [ | c s IH]; intros inside; cbn; [discriminate | ].
  destruct inside.
  - destruct (Ascii.eqb c ">"); cbn; [reflexivity | apply IH].
  - destruct (Ascii.eqb c "<" && ScriptJs.has_gt s) eqn:E.
    + intros H. apply IH in H. rewrite H. apply orb_true_r.
    + cbn. destruct (Ascii.eqb c ">"); cbn; [reflexivity | apply IH].
Qed.

Lemma tagless_strip (inside : bool) (s : string) :
  ScriptJs.tagless (ScriptJs.strip inside s) = true.
Proof.
  revert inside. induction s as [ | c s IH]; intros inside; cbn; [reflexivity | ].
  destruct inside.
  - destruct (Ascii.eqb c ">"); apply IH.
  - destruct (Ascii.eqb c "<" && ScriptJs.has_gt s) eqn:E; [apply IH | ].
    cbn. rewrite IH, andb_true_r. apply negb_true_iff.
    apply andb_false_iff in E. apply andb_false_iff.
    destruct E as [E | E]; [left; exact E | right].
    destruct (ScriptJs.has_gt (ScriptJs.strip false s)) eqn:H; [ | reflexivity].
    apply has_gt_strip in H. congruence.
Qed.

Lemma strip_tagless (s : string) :
  ScriptJs.tagless s = true -> ScriptJs.strip false s = s.
Proof.
  induction s as [ | c s IH]; cbn; [reflexivity | ].
  intros H. apply andb_prop in H. destruct H as [Hc Hs].
  apply negb_true_iff in Hc. rewrite Hc, (IH Hs). reflexivity.
Qed.

Lemma tagless_no_lt (s : string) : ScriptJs.has_lt s = false -> ScriptJs.tagless s = true.
Proof.
  induction s as [ | c s IH]; cbn; [reflexivity | ].
  intros H. apply orb_false_iff in H. destruct H as [Hc Hs].
  rewrite Hc, (IH Hs). reflexivity.
Qed.

Lemma length_strip (inside : bool) (s : string) :
  (String.length (ScriptJs.strip inside s) <= String.length s)%nat.
Proof.
  revert inside. induction s as [ | c s IH]; intros inside; cbn; [lia | ].
  destruct inside.
  - destruct (Ascii.eqb c ">"); [specialize (IH false) | specialize (IH true)]; lia.
  - destruct (Ascii.eqb c "<" && ScriptJs.has_gt s).
    + specialize (IH true). lia.
    + cbn. specialize (IH false). lia.
Qed.

(** X19.  Stripping the markup of a description, as the rewrite's
    [renderFeed] does it, leaves no tag behind (no "<" that a ">" follows), so
    stripping again changes nothing; it never makes the text longer, and it
    returns a text without "<" as it is. *)
Theorem strip_tags_leaves_no_tag (s : string) :
  ScriptJs.tagless (ScriptJs.strip_tags s) = true /\
  ScriptJs.strip_tags (ScriptJs.strip_tags s) = ScriptJs.strip_tags s /\
  (String.length (ScriptJs.strip_tags s) <= String.length s)%nat /\
  (ScriptJs.has_lt s = false -> ScriptJs.strip_tags s = s).
Proof.
  unfold ScriptJs.strip_tags. split; [apply tagless_strip | ].
  split; [apply strip_tagless, tagless_strip | ].
  split; [apply length_strip | ].
  intros H. apply strip_tagless, tagless_no_lt, H.
Qed.

(** ** The rewrite: its Fetcher *)

(** X20.  The rewrite's Fetcher follows its own schedule: when the first
    [failed] attempts throw (fewer than three), it waits 1000 ms after the
    first and 2000 ms after the second, and the next attempt decides: a reply
    that is an HTTP success with a JSON body is handed back as it is, whatever
    its status field says, and a third failure is thrown to the caller. *)
Theorem script_fetch_schedule (url : string) (net : nat -> Response) (failed : nat)
    (last : completion Payload) :
  (failed < 3)%nat ->
  (forall j, (j < failed)%nat -> exists e, ScriptJs.try_block (net j) = Throw e) ->
  ScriptJs.try_block (net failed) = last ->
  (failed = 2%nat \/ exists data, last = Normal data) ->
  ScriptJs.fetchFeedWithRetry url net
  = (match last with Normal data => Normal (Some data) | Throw e => Throw e end,
     flat_map (fun i => [Fetch url; Wait (1000 * 2 ^ Z.of_nat i)%Z]) (seq 0 failed)
     ++ [Fetch url]) /\
  (failed = 2%nat ->
   snd (ScriptJs.fetchFeedWithRetry url net)
   = [Fetch url; Wait 1000; Fetch url; Wait 2000; Fetch url]).
Proof.
  intros Hlt Hth Hlast Hdec. unfold ScriptJs.fetchFeedWithRetry.
  destruct failed as [ | [ | [ | failed]]]; [ | | | lia]; cbn.
  - destruct Hdec as [H | [data ->]]; [discriminate | ].
    rewrite Hlast. split; [reflexivity | discriminate].
  - destruct (Hth 0%nat) as [e0 H0]; [lia | ].
    destruct Hdec as [H | [data ->]]; [discriminate | ].
    rewrite H0, Hlast. split; [reflexivity | discriminate].
  - destruct (Hth 0%nat) as [e0 H0]; [lia | ]. destruct (Hth 1%nat) as [e1 H1]; [lia | ].
    rewrite H0, H1, Hlast. destruct last; split; reflexivity.
Qed.

Lemma script_fetch_schedule_witness :
  ScriptJs.fetchFeedWithRetry "https://b.example/rss" (fun _ => Unreachable)
  = (match Throw (TypeError "Failed to fetch") with
     | Normal data => Normal (Some data)
     | Throw e => Throw e
     end,
     flat_map (fun i => [Fetch "https://b.example/rss"; Wait (1000 * 2 ^ Z.of_nat i)%Z])
              (seq 0 2)
     ++ [Fetch "https://b.example/rss"]) /\
  (2%nat = 2%nat ->
   snd (ScriptJs.fetchFeedWithRetry "https://b.example/rss" (fun _ => Unreachable))
   = [Fetch "https://b.example/rss"; Wait 1000; Fetch "https://b.example/rss"; Wait 2000;
      Fetch "https://b.example/rss"]).
Proof.
  apply (script_fetch_schedule "https://b.example/rss" (fun _ => Unreachable) 2
                               (Throw (TypeError "Failed to fetch"))).
  - lia.
  - intros j _. eexists. reflexivity.
  - reflexivity.
  - left. reflexivity.
Defined.

(** X21.  Whatever the replies, a call of the rewrite's Fetcher makes at
    least one and at most three requests, all for its URL, waits at most
    1000 ms and then 2000 ms, and comes back with a payload or an exception,
    never with undefined. *)
Theorem script_fetch_is_bounded (url : string) (net : nat -> Response) :
  let outcome := fst (ScriptJs.fetchFeedWithRetry url net) in
  let run := snd (ScriptJs.fetchFeedWithRetry url net) in
  (1 <= fetches run <= 3)%nat /\
  (waits run = [] \/ waits run = [1000%Z] \/ waits run = [1000%Z; 2000%Z]) /\
  Forall (eq url) (requested run) /\
  outcome <> Normal None.
Proof.
  unfold ScriptJs.fetchFeedWithRetry. cbn.
  destruct (ScriptJs.try_block (net 0%nat)) as [d0 | e0]; cbn.
  - repeat split; try lia; auto; try discriminate; repeat constructor.
  - destruct (ScriptJs.try_block (net 1%nat)) as [d1 | e1]; cbn.
    + repeat split; try lia; auto; try discriminate; repeat constructor.
    + destruct (ScriptJs.try_block (net 2%nat)) as [d2 | e2]; cbn;
        (repeat split; try lia; auto; try discriminate; repeat constructor).
Qed.

(** ** The rewrite: its dialog *)

Lemma script_getFeeds_eq (p : Page) :
  localStorage p <> Some Unparsable ->
  ScriptJs.getFeeds p = (Normal (reference_of (localStorage p)), p).
Proof.
  intros H. unfold ScriptJs.getFeeds, bind, getItem, read, lift, ret.
  destruct (localStorage p) as [[ | | urls] | ]; try reflexivity. congruence.
Qed.

(** X22.  The rewrite's [addFeed] does nothing at all, not even clear the
    input or show a message, when the trimmed input is empty, or when it is
    a URL the list already holds. *)
Theorem script_addFeed_blank_or_known_is_silent (p : Page) :
  trim (addFeedInput p) = "" \/
  (localStorage p <> Some Unparsable /\ In (trim (addFeedInput p)) (current_feeds p)) ->
  ScriptJs.addFeed p = (Normal tt, p).
Proof.
  intros H. unfold ScriptJs.addFeed, bind at 1, read.
  destruct (is_empty_string (trim (addFeedInput p))) eqn:Ee; [reflexivity | ].
  destruct H as [H | [Hst Hin]]; [rewrite H in Ee; discriminate | ].
  unfold bind at 1. rewrite (script_getFeeds_eq p Hst).
  unfold bind at 1, read. rewrite <- current_feeds_eq, (includes_In _ _ Hin). reflexivity.
Qed.

Lemma script_addFeed_blank_or_known_is_silent_witness :
  let p := set_addFeedInput " https://b.example/rss" two_feeds_page in
  ScriptJs.addFeed p = (Normal tt, p).
Proof.
  intros p. apply (script_addFeed_blank_or_known_is_silent p).
  right. split; [discriminate | ].
  vm_compute. right. left. reflexivity.
Defined.

(** X23.  The rewrite cannot get past a stored item that does not parse:
    reading the list, redrawing the dialog, removing at any index, adding any
    non-empty URL and loading the feeds all throw the parser's SyntaxError
    and leave the page as it was, without a single request. *)
Theorem script_unparsable_item_blocks_everything
    (p : Page) (index : Z) (net : nat -> nat -> Response) :
  localStorage p = Some Unparsable ->
  ScriptJs.getFeeds p = (Throw (SyntaxError "Unexpected token"), p) /\
  ScriptJs.renderFeedsList p = (Throw (SyntaxError "Unexpected token"), p) /\
  ScriptJs.removeFeed index p = (Throw (SyntaxError "Unexpected token"), p) /\
  (trim (addFeedInput p) <> "" ->
   ScriptJs.addFeed p = (Throw (SyntaxError "Unexpected token"), p)) /\
  ScriptJs.loadAllFeeds net p = (Throw (SyntaxError "Unexpected token"), p, []).
Proof.
  intros H.
  assert (Hg : ScriptJs.getFeeds p = (Throw (SyntaxError "Unexpected token"), p)).
  { unfold ScriptJs.getFeeds, bind, getItem, read. rewrite H. reflexivity. }
  split; [exact Hg | ].
  split; [unfold ScriptJs.renderFeedsList, bind at 1; rewrite Hg; reflexivity | ].
  split; [unfold ScriptJs.removeFeed, bind at 1; rewrite Hg; reflexivity | ].
  split.
  - intros Hne. unfold ScriptJs.addFeed, bind at 1, read.
    rewrite (is_empty_string_false _ Hne). unfold bind at 1. rewrite Hg. reflexivity.
  - unfold ScriptJs.loadAllFeeds. rewrite Hg. reflexivity.
Qed.

Lemma script_unparsable_item_blocks_everything_witness :
  let p := set_addFeedInput "https://c.example/rss" (fresh_page (Some Unparsable) false) in
  ScriptJs.getFeeds p = (Throw (SyntaxError "Unexpected token"), p) /\
  ScriptJs.renderFeedsList p = (Throw (SyntaxError "Unexpected token"), p) /\
  ScriptJs.removeFeed 0 p = (Throw (SyntaxError "Unexpected token"), p) /\
  (trim (addFeedInput p) <> "" ->
   ScriptJs.addFeed p = (Throw (SyntaxError "Unexpected token"), p)) /\
  ScriptJs.loadAllFeeds (fun _ _ => Unreachable) p
  = (Throw (SyntaxError "Unexpected token"), p, []).
Proof.
  intros p.
  apply (script_unparsable_item_blocks_everything p 0 (fun _ _ => Unreachable)).
  reflexivity.
Defined.

Lemma script_renderFeedsList_eq (p : Page) :
  localStorage p <> Some Unparsable ->
  ScriptJs.renderFeedsList p = (Normal tt, set_feedsList (current_feeds p) p).
Proof.
  intros H. unfold ScriptJs.renderFeedsList, bind at 1. rewrite (script_getFeeds_eq p H).
  unfold bind, read, update. rewrite <- current_feeds_eq. reflexivity.
Qed.

(** X24.  The rewrite's [removeFeed], with an item that parses (or none) and
    a storage that takes the write, completes for every index: it stores the
    spliced list and draws it in the dialog.  An index inside the list
    removes that one entry; an index at or past the end removes nothing and
    throws nothing. *)
Theorem script_removeFeed_completes (p : Page) (index : Z) :
  quota_exceeded p = false ->
  localStorage p <> Some Unparsable ->
  exists p',
    ScriptJs.removeFeed index p = (Normal tt, p') /\
    localStorage p' = Some (FeedArray (current_feeds p')) /\
    feedsList p' = current_feeds p' /\
    messageBox p' = messageBox p /\
    ((0 <= index < Z.of_nat (length (current_feeds p)))%Z ->
     current_feeds p' = remove_at (Z.to_nat index) (current_feeds p)) /\
    ((Z.of_nat (length (current_feeds p)) <= index)%Z ->
     current_feeds p' = current_feeds p).
Proof.
  intros Hq Hst.
  pose proof (current_feeds_eq p) as Hcur.
  set (spliced := splice1 index (current_feeds p)).
  set (p1 := after_save spliced (after_splice index p)).
  assert (Hq1 : quota_exceeded (after_splice index p) = false)
    by (rewrite quota_after_splice; exact Hq).
  assert (Hl1 : localStorage p1 = Some (FeedArray spliced))
    by (unfold p1, after_save; rewrite Hq1; reflexivity).
  assert (Hc1 : current_feeds p1 = spliced)
    by (apply current_feeds_after_save, Hq1).
  assert (Hrun : ScriptJs.removeFeed index p = (Normal tt, set_feedsList spliced p1)).
  { unfold ScriptJs.removeFeed, bind at 1. rewrite (script_getFeeds_eq p Hst).
    unfold bind at 1, splice. rewrite <- Hcur, assign_eq.
    change (match reference_of (localStorage p) with
            | TheDefaults => set_DEFAULT_FEEDS (splice1 index (current_feeds p)) p
            | Parsed _ => p
            end) with (after_splice index p).
    unfold bind at 1, read.
    assert (Hel : elements (after_splice index p)
                           (match reference_of (localStorage p) with
                            | TheDefaults => TheDefaults
                            | Parsed _ => Parsed (splice1 index (current_feeds p))
                            end)
                  = spliced).
    { unfold after_splice. destruct (reference_of (localStorage p)); reflexivity. }
    rewrite Hel. unfold bind at 1, ScriptJs.saveFeeds, setItem, JSON_stringify.
    rewrite Hq1. fold (after_save spliced (after_splice index p)).
    replace (set_localStorage (Some (FeedArray spliced)) (after_splice index p)) with p1
      by (unfold p1, after_save; rewrite Hq1; reflexivity).
    rewrite script_renderFeedsList_eq by (rewrite Hl1; discriminate).
    rewrite Hc1. reflexivity. }
  exists (set_feedsList spliced p1). split; [exact Hrun | ].
  assert (Hc : current_feeds (set_feedsList spliced p1) = spliced)
    by (rewrite <- Hc1; rewrite !current_feeds_eq; reflexivity).
  rewrite Hc. split; [exact Hl1 | ]. split; [reflexivity | ].
  split.
  - unfold p1, after_save. rewrite Hq1. unfold after_splice.
    destruct (reference_of (localStorage p)); reflexivity.
  - split; intros Hi; unfold spliced.
    + apply splice1_in_range, Hi.
    + apply splice1_past_end, Hi.
Qed.

Lemma script_removeFeed_completes_witness :
  exists p',
    ScriptJs.removeFeed 5 two_feeds_page = (Normal tt, p') /\
    localStorage p' = Some (FeedArray (current_feeds p')) /\
    feedsList p' = current_feeds p' /\
    messageBox p' = messageBox two_feeds_page /\
    ((0 <= 5 < Z.of_nat (length (current_feeds two_feeds_page)))%Z ->
     current_feeds p' = remove_at (Z.to_nat 5) (current_feeds two_feeds_page)) /\
    ((Z.of_nat (length (current_feeds two_feeds_page)) <= 5)%Z ->
     current_feeds p' = current_feeds two_feeds_page).
Proof.
  apply (script_removeFeed_completes two_feeds_page 5).
  - reflexivity.
  - discriminate.
Defined.

(** ** The rewrite: drawing and loading *)

Lemma set_feedContainer_twice (a b : list Node) (p : Page) :
  set_feedContainer a (set_feedContainer b p) = set_feedContainer a p.
Proof. reflexivity. Qed.

Lemma append_cards_described (its : list Article) (p : Page) :
  Forall described its ->
  ScriptJs.append_cards its p
  = (Normal tt, set_feedContainer (feedContainer p ++ map Card its) p).
Proof.
  intros H. revert p. induction H as [ | item rest Hd _ IH]; intros p;
    cbn [ScriptJs.append_cards map].
  - unfold ret. rewrite app_nil_r. destruct p; reflexivity.
  - unfold described in Hd. unfold bind at 1, lift, ScriptJs.preview.
    destruct (description item) as [d | ]; [ | congruence].
    unfold bind at 1, update. rewrite IH. cbn [feedContainer set_feedContainer].
    rewrite set_feedContainer_twice, <- app_assoc. reflexivity.
Qed.

Lemma append_cards_stops (before rest : list Article) (bad : Article) (p : Page) :
  Forall described before ->
  description bad = None ->
  ScriptJs.append_cards (before ++ bad :: rest) p
  = (Throw (TypeError "Cannot read properties of undefined (reading 'replace')"),
     set_feedContainer (feedContainer p ++ map Card before) p).
Proof.
  intros H Hbad. revert p. induction H as [ | item more Hd _ IH]; intros p;
    cbn [ScriptJs.append_cards map app].
  - unfold bind, lift, ScriptJs.preview. rewrite Hbad, app_nil_r. destruct p; reflexivity.
  - unfold described in Hd. unfold bind at 1, lift, ScriptJs.preview.
    destruct (description item) as [d | ]; [ | congruence].
    unfold bind at 1, update. rewrite IH. cbn [feedContainer set_feedContainer].
    rewrite set_feedContainer_twice, <- app_assoc. reflexivity.
Qed.

(** X25.  The rewrite's [renderFeed] reads [item.description] without a
    guard: given articles that carry a title (as [Article] has it), at the
    first one without a description it throws a TypeError, and the container
    is left with the cards of the articles before that one and nothing
    after. *)
Theorem script_renderFeed_stops_at_the_first_undescribed
    (before rest : list Article) (bad : Article) (p : Page) :
  Forall described before ->
  description bad = None ->
  ScriptJs.renderFeed (before ++ bad :: rest) p
  = (Throw (TypeError "Cannot read properties of undefined (reading 'replace')"),
     set_feedContainer (map Card before) p) /\
  rendered (set_feedContainer (map Card before) p) = before.
Proof.
  intros H Hbad. split.
  - unfold ScriptJs.renderFeed, bind, update.
    destruct (before ++ bad :: rest) as [ | x l] eqn:E;
      [destruct before; discriminate | ].
    rewrite <- E, (append_cards_stops before rest bad _ H Hbad). reflexivity.
  - unfold rendered. cbn [feedContainer set_feedContainer].
    apply (rendered_cards [] before). intros n [].
Qed.

Lemma script_renderFeed_stops_at_the_first_undescribed_witness :
  let bad := mkArticle "bare" "https://a.example/bare" (Some 1500%Z) None None None in
  ScriptJs.renderFeed ([article "first" (Some 2000%Z)] ++ bad :: [article "second" (Some 1000%Z)])
                      two_feeds_page
  = (Throw (TypeError "Cannot read properties of undefined (reading 'replace')"),
     set_feedContainer (map Card [article "first" (Some 2000%Z)]) two_feeds_page) /\
  rendered (set_feedContainer (map Card [article "first" (Some 2000%Z)]) two_feeds_page)
  = [article "first" (Some 2000%Z)].
Proof.
  intros bad.
  apply (script_renderFeed_stops_at_the_first_undescribed
           [article "first" (Some 2000%Z)] [article "second" (Some 1000%Z)] bad two_feeds_page).
  - repeat constructor. discriminate.
  - reflexivity.
Defined.

Lemma script_renderFeed_described (its : list Article) (p : Page) :
  Forall described its ->
  ScriptJs.renderFeed its p
  = (Normal tt,
     set_feedContainer (match its with [] => [Placeholder] | _ => map Card its end) p).
Proof.
  intros H. unfold ScriptJs.renderFeed, bind, update. destruct its as [ | x l]; [reflexivity | ].
  rewrite (append_cards_described (x :: l) _ H). reflexivity.
Qed.

Lemma script_fetch_requests (url : string) (net : nat -> Response) :
  (1 <= fetches (snd (ScriptJs.fetchFeedWithRetry url net)) <= 3)%nat.
Proof.
  unfold ScriptJs.fetchFeedWithRetry. cbn.
  destruct (ScriptJs.try_block (net 0%nat)); cbn; [lia | ].
  destruct (ScriptJs.try_block (net 1%nat)); cbn; [lia | ].
  destruct (ScriptJs.try_block (net 2%nat)); cbn; lia.
Qed.

Lemma gather_acc (urls : list string) (net : nat -> nat -> Response) (i : nat)
    (acc : list Article) :
  ScriptJs.gather urls net i acc
  = (acc ++ fst (ScriptJs.gather urls net i []), snd (ScriptJs.gather urls net i [])).
Proof.
  revert i acc. induction urls as [ | url rest IH]; intros i acc; cbn [ScriptJs.gather].
  - cbn. rewrite app_nil_r. reflexivity.
  - destruct (ScriptJs.fetchFeedWithRetry url (net i)) as [fetched call].
    rewrite (IH (S i) (acc ++ ScriptJs.contribution fetched)).
    rewrite (IH (S i) ([] ++ ScriptJs.contribution fetched)). cbn [fst snd app].
    rewrite app_assoc. reflexivity.
Qed.

Lemma gather_calls (urls : list string) (net : nat -> nat -> Response) (i : nat) :
  length (snd (ScriptJs.gather urls net i [])) = length urls /\
  Forall (fun call => (1 <= fetches call <= 3)%nat) (snd (ScriptJs.gather urls net i [])).
Proof.
  revert i. induction urls as [ | url rest IH]; intros i; cbn [ScriptJs.gather].
  - split; [reflexivity | constructor].
  - pose proof (script_fetch_requests url (net i)) as Hb.
    destruct (ScriptJs.fetchFeedWithRetry url (net i)) as [fetched call].
    rewrite gather_acc. cbn [fst snd length]. cbn [snd] in Hb.
    destruct (IH (S i)) as [Hlen Hall].
    split; [rewrite Hlen; reflexivity | constructor; assumption].
Qed.

Lemma contribution_In (fetched : completion (option Payload)) (a : Article) :
  In a (ScriptJs.contribution fetched) <->
  exists data its,
    fetched = Normal (Some data) /\ status data = Some "ok" /\
    items data = Some its /\ In a its.
Proof.
  unfold ScriptJs.contribution. destruct fetched as [[data | ] | e].
  - destruct (status_is "ok" data) eqn:Hs.
    + destruct (items data) as [its | ] eqn:Hi.
      * split.
        -- intros H. exists data, its. repeat split; auto. apply status_is_eq, Hs.
        -- intros [d [l [Hd [_ [Hl H]]]]]. injection Hd as <-. congruence.
      * split; [intros [] | ]. intros [d [l [Hd [_ [Hl H]]]]]. injection Hd as <-. congruence.
    + split; [intros [] | ]. intros [d [l [Hd [Hst _]]]]. injection Hd as <-.
      unfold status_is in Hs. rewrite Hst in Hs. discriminate.
  - split; [intros [] | ]. intros [d [l [Hd _]]]. discriminate.
  - split; [intros [] | ]. intros [d [l [Hd _]]]. discriminate.
Qed.

Lemma gather_In (urls : list string) (net : nat -> nat -> Response) (base : nat)
    (a : Article) :
  In a (fst (ScriptJs.gather urls net base [])) <->
  exists i url data its,
    nth_error urls i = Some url /\
    fst (ScriptJs.fetchFeedWithRetry url (net (base + i)%nat)) = Normal (Some data) /\
    status data = Some "ok" /\ items data = Some its /\ In a its.
Proof.
  revert base. induction urls as [ | url rest IH]; intros base; cbn [ScriptJs.gather].
  - cbn. split; [intros [] | ]. intros [[ | i] [u [d [l [H _]]]]]; discriminate.
  - destruct (ScriptJs.fetchFeedWithRetry url (net base)) as [fetched call] eqn:Hf.
    rewrite gather_acc. cbn [fst snd app].
    rewrite in_app_iff, (IH (S base)), contribution_In. split.
    + intros [[data [its [Hd H]]] | [i [u [data [its [Hu [Hd H]]]]]]].
      * exists 0%nat, url, data, its. rewrite Nat.add_0_r, Hf. cbn. auto.
      * exists (S i), u, data, its. replace (base + S i)%nat with (S base + i)%nat by lia. auto.
    + intros [[ | i] [u [data [its [Hu [Hd H]]]]]]; cbn in Hu.
      * injection Hu as <-. rewrite Nat.add_0_r, Hf in Hd. cbn in Hd.
        left. exists data, its. auto.
      * right. exists i, u, data, its.
        replace (S base + i)%nat with (base + S i)%nat by lia. auto.
Qed.

(** X26.  The rewrite's [loadAllFeeds], with an item that parses (or none)
    and articles that all have a title and a description, completes without a
    message:
    one call per URL with one to three requests each, the loading indicator
    hidden again, and on the page, sorted by the comparator, exactly the
    articles of the payloads that came back with status "ok" and an items
    array; a feed that threw, or answered anything else, adds nothing. *)
Theorem script_loadAllFeeds_gathers_the_ok_feeds (net : nat -> nat -> Response) (p : Page) :
  localStorage p <> Some Unparsable ->
  Forall described (fst (ScriptJs.gather (current_feeds p) net 0 [])) ->
  exists p' calls,
    ScriptJs.loadAllFeeds net p = (Normal tt, p', calls) /\
    length calls = length (current_feeds p) /\
    Forall (fun call => (1 <= fetches call <= 3)%nat) calls /\
    loadingIndicator p' = false /\
    messageBox p' = messageBox p /\
    localStorage p' = localStorage p /\
    Permutation (rendered p') (fst (ScriptJs.gather (current_feeds p) net 0 [])) /\
    forall a,
      In a (rendered p') <->
      exists i url data its,
        nth_error (current_feeds p) i = Some url /\
        fst (ScriptJs.fetchFeedWithRetry url (net i)) = Normal (Some data) /\
        status data = Some "ok" /\ items data = Some its /\ In a its.
Proof.
  intros Hst Hd.
  unfold ScriptJs.loadAllFeeds. rewrite (script_getFeeds_eq p Hst), <- current_feeds_eq.
  destruct (ScriptJs.gather (current_feeds p) net 0 []) as [allItems calls] eqn:Hg.
  cbn [fst] in Hd.
  assert (Hsorted : Forall described (Array_sort newest_first allItems))
    by (apply (Permutation_Forall (Permutation_sym (Array_sort_Permutation _ _))), Hd).
  rewrite (script_renderFeed_described _ _ Hsorted).
  destruct (gather_calls (current_feeds p) net 0) as [Hlen Hall]. rewrite Hg in Hlen, Hall.
  assert (Hrend : rendered
                    (set_feedContainer
                       (match Array_sort newest_first allItems with
                        | [] => [Placeholder]
                        | _ => map Card (Array_sort newest_first allItems)
                        end)
                       (set_loadingIndicator false
                          (set_feedContainer [] (set_loadingIndicator true p))))
                  = Array_sort newest_first allItems).
  { unfold rendered. cbn [feedContainer set_feedContainer].
    destruct (Array_sort newest_first allItems) as [ | x l]; [reflexivity | ].
    apply (rendered_cards [] (x :: l)). intros n []. }
  do 2 eexists. split; [reflexivity | ].
  split; [exact Hlen | ]. split; [exact Hall | ].
  split; [reflexivity | ]. split; [reflexivity | ]. split; [reflexivity | ].
  rewrite Hrend. cbn [fst].
  assert (Hperm := Array_sort_Permutation newest_first allItems).
  split; [exact Hperm | ].
  intros a. pose proof (gather_In (current_feeds p) net 0 a) as Hin.
  rewrite Hg in Hin. cbn [fst] in Hin. rewrite <- Hin. split.
  - apply Permutation_in, Hperm.
  - apply Permutation_in, Permutation_sym, Hperm.
Qed.

Lemma script_loadAllFeeds_gathers_the_ok_feeds_witness :
  exists p' calls,
    ScriptJs.loadAllFeeds a_succeeds_b_fails two_feeds_page = (Normal tt, p', calls) /\
    length calls = length (current_feeds two_feeds_page) /\
    Forall (fun call => (1 <= fetches call <= 3)%nat) calls /\
    loadingIndicator p' = false /\
    messageBox p' = messageBox two_feeds_page /\
    localStorage p' = localStorage two_feeds_page /\
    Permutation (rendered p')
                (fst (ScriptJs.gather (current_feeds two_feeds_page) a_succeeds_b_fails 0 [])) /\
    forall a,
      In a (rendered p') <->
      exists i url data its,
        nth_error (current_feeds two_feeds_page) i = Some url /\
        fst (ScriptJs.fetchFeedWithRetry url (a_succeeds_b_fails i)) = Normal (Some data) /\
        status data = Some "ok" /\ items data = Some its /\ In a its.
Proof.
  apply (script_loadAllFeeds_gathers_the_ok_feeds a_succeeds_b_fails two_feeds_page).
  - discriminate.
  - vm_compute. repeat constructor; discriminate.
Defined.

(** ** The comma-separated input *)

Lemma starts_clean_trimStart (s : string) : starts_clean (trimStart s) = true.
Proof.
  induction s as [ | c s IH]; cbn; [reflexivity | ].
  destruct (is_space c) eqn:E; [exact IH | cbn; rewrite E; reflexivity].
Qed.

Lemma trimStart_starts_clean (s : string) : starts_clean s = true -> trimStart s = s.
Proof.
  destruct s as [ | c s]; cbn; [reflexivity | ].
  intros H. apply negb_true_iff in H. rewrite H. reflexivity.
Qed.

Lemma starts_clean_trimEnd (s : string) :
  starts_clean s = true -> starts_clean (trimEnd s) = true.
Proof.
  destruct s as [ | c s]; cbn; [reflexivity | ].
  intros H. destruct (trimEnd s).
  - apply negb_true_iff in H. rewrite H. cbn. rewrite H. reflexivity.
  - cbn. exact H.
Qed.

Lemma trimEnd_idempotent (s : string) : trimEnd (trimEnd s) = trimEnd s.
Proof.
  induction s as [ | c s IH]; cbn; [reflexivity | ].
  destruct (trimEnd s) as [ | d t] eqn:E.
  - destruct (is_space c) eqn:Ec; cbn; [reflexivity | rewrite Ec; reflexivity].
  - cbn [trimEnd] in IH |- *. cbn [trimEnd]. rewrite IH. reflexivity.
Qed.

Lemma trim_idempotent (s : string) : trim (trim s) = trim s.
Proof.
  unfold trim.
  rewrite (trimStart_starts_clean (trimEnd (trimStart s)))
    by apply starts_clean_trimEnd, starts_clean_trimStart.
  apply trimEnd_idempotent.
Qed.

Lemma has_comma_trimStart (s : string) :
  MultiFeed.has_comma (trimStart s) = true -> MultiFeed.has_comma s = true.
Proof.
  induction s as [ | c s IH]; cbn; [discriminate | ].
  destruct (is_space c); [intros H; rewrite (IH H); apply orb_true_r | cbn; auto].
Qed.

Lemma has_comma_trimEnd (s : string) :
  MultiFeed.has_comma (trimEnd s) = true -> MultiFeed.has_comma s = true.
Proof.
  induction s as [ | c s IH]; cbn; [discriminate | ].
  destruct (trimEnd s) as [ | d t] eqn:E.
  - destruct (is_space c); cbn; [discriminate | ].
    rewrite orb_false_r. intros H. rewrite H. reflexivity.
  - cbn [MultiFeed.has_comma]. intros H. apply orb_prop in H.
    destruct H as [H | H]; [rewrite H; reflexivity | ].
    rewrite IH; [apply orb_true_r | exact H].
Qed.

Lemma split_commas_no_comma (value piece : string) :
  In piece (MultiFeed.split_commas value) -> MultiFeed.has_comma piece = false.
Proof.
  revert piece. induction value as [ | c rest IH]; intros piece; cbn.
  - intros [<- | []]. reflexivity.
  - destruct (Ascii.eqb c ",") eqn:Ec.
    + intros [<- | H]; [reflexivity | apply IH, H].
    + destruct (MultiFeed.split_commas rest) as [ | first pieces].
      * intros [<- | []]. cbn. rewrite Ec. reflexivity.
      * intros [<- | H].
        -- cbn. rewrite Ec. apply IH. left. reflexivity.
        -- apply IH. right. exact H.
Qed.

(** X27.  Every URL read from the comma-separated input is clean: it is not
    empty, it holds no comma, and it has no white space at either end. *)
Theorem parse_urls_gives_clean_urls (value : string) :
  Forall MultiFeed.clean (MultiFeed.parse_urls value).
Proof.
  apply Forall_forall. intros url Hin. unfold MultiFeed.parse_urls in Hin.
  apply filter_In in Hin. destruct Hin as [Hin Hne].
  apply in_map_iff in Hin. destruct Hin as [piece [<- Hpiece]].
  split; [ | split].
  - intros He. rewrite He in Hne. discriminate.
  - destruct (MultiFeed.has_comma (trim piece)) eqn:Hc; [ | reflexivity].
    unfold trim in Hc. apply has_comma_trimEnd, has_comma_trimStart in Hc.
    rewrite (split_commas_no_comma value piece Hpiece) in Hc. discriminate.
  - apply trim_idempotent.
Qed.

(** X28.  An input made of commas and white space only gives no URL. *)
Theorem parse_urls_of_separators_is_empty (value : string) :
  MultiFeed.only_separators value = true -> MultiFeed.parse_urls value = [].
Proof.
  unfold MultiFeed.parse_urls. induction value as [ | c rest IH]; cbn; [reflexivity | ].
  intros H. apply andb_prop in H. destruct H as [Hc Hrest]. specialize (IH Hrest).
  destruct (Ascii.eqb c ",") eqn:Ec; cbn; [exact IH | ].
  cbn in Hc.
  destruct (MultiFeed.split_commas rest) as [ | piece pieces]; cbn in *.
  - rewrite Hc. reflexivity.
  - unfold trim at 1. cbn [trimStart]. rewrite Hc. fold (trim piece).
    exact IH.
Qed.

Lemma parse_urls_of_separators_is_empty_witness :
  MultiFeed.parse_urls " , ,,  " = [].
Proof.
  apply (parse_urls_of_separators_is_empty " , ,,  "). reflexivity.
Defined.

Lemma split_commas_piece (a rest : string) :
  MultiFeed.has_comma a = false ->
  MultiFeed.split_commas (a ++ String "," rest)%string
  = a :: MultiFeed.split_commas rest.
Proof.
  induction a as [ | c a IH]; cbn; [reflexivity | ].
  intros H. apply orb_false_elim in H. destruct H as [Hc Ha].
  rewrite Hc, (IH Ha). reflexivity.
Qed.

Lemma split_commas_single (a : string) :
  MultiFeed.has_comma a = false -> MultiFeed.split_commas a = [a].
Proof.
  induction a as [ | c a IH]; cbn; [reflexivity | ].
  intros H. apply orb_false_elim in H. destruct H as [Hc Ha].
  rewrite Hc, (IH Ha). reflexivity.
Qed.

Lemma split_commas_concat (a : string) (l : list string) :
  Forall (fun url => MultiFeed.has_comma url = false) (a :: l) ->
  MultiFeed.split_commas (String.concat ", " (a :: l)) = a :: map (String " ") l.
Proof.
  revert a. induction l as [ | b l IH]; intros a H.
  - cbn. apply split_commas_single. inversion H; assumption.
  - inversion H as [ | ? ? Ha Hl]; subst.
    change (String.concat ", " (a :: b :: l))
      with (a ++ String "," (String " " (String.concat ", " (b :: l))))%string.
    rewrite (split_commas_piece _ _ Ha).
    change (MultiFeed.split_commas (String " " (String.concat ", " (b :: l))))
      with (match MultiFeed.split_commas (String.concat ", " (b :: l)) with
            | piece :: pieces => String " " piece :: pieces
            | [] => [String " " EmptyString]
            end).
    rewrite (IH b Hl). reflexivity.
Qed.

Lemma parse_kept (l : list string) :
  Forall MultiFeed.clean l ->
  filter (fun url => negb (is_empty_string url)) (map trim (map (String " ") l)) = l.
Proof.
  induction 1 as [ | b l [Hne [_ Ht]] _ IH]; [reflexivity | ].
  cbn [map filter].
  change (trim (String " " b)) with (trim b). rewrite Ht, IH.
  destruct b; [congruence | reflexivity].
Qed.

(** X29.  Clean URLs typed with a comma and a space between them are read
    back as they were typed, in the same order. *)
Theorem parse_urls_reads_back (l : list string) :
  Forall MultiFeed.clean l ->
  MultiFeed.parse_urls (String.concat ", " l) = l.
Proof.
  intros H. destruct l as [ | a l]; [reflexivity | ].
  unfold MultiFeed.parse_urls.
  rewrite split_commas_concat.
  - inversion H as [ | ? ? [Hne [_ Ht]] Hl]; subst.
    cbn [map filter]. rewrite Ht, (parse_kept l Hl).
    destruct a; [congruence | reflexivity].
  - eapply Forall_impl; [ | exact H]. intros url [_ [Hc _]]. exact Hc.
Qed.

Lemma parse_urls_reads_back_witness :
  MultiFeed.parse_urls "https://a.example/rss, https://b.example/feed.xml"
  = ["https://a.example/rss"; "https://b.example/feed.xml"].
Proof.
  apply (parse_urls_reads_back ["https://a.example/rss"; "https://b.example/feed.xml"]).
  repeat constructor; discriminate.
Defined.
